(** * icoro: the trampoline runner [IStack] and the rotator [IRotator]

    A shallow embedding of [icoro.py].  A coroutine object is kept by its
    state: [send] and [throw] give the request it yields together with the
    state it is left in, or the way it ends.  The engines are the loops of
    [IStack.run] and [IRotator.run], written with a step budget where the
    source loops without bound. *)

From Stdlib Require Import ZArith List Bool Lia Ascii.
From stdpp Require Import base option list sorting gmap strings.

Local Open Scope string_scope.
Local Open Scope list_scope.

(** ** IBase: what both engines share *)

Module IBase.

(** Exceptions.  [StopIteration] is not listed: a coroutine that returns is
    the [Returned] outcome below.  [FatalError] stands for the exceptions
    that derive from [BaseException] but not from [Exception]
    (KeyboardInterrupt, SystemExit, GeneratorExit, ...); every other
    other built-in constructor, and [TaskError], derives from [Exception].
    [UserError] is an instance of a class of the embedder's: the class may
    derive from [Exception] or not ([under_exception]), and it may define
    [__bool__] or [__len__], which decides the truth value of its instances
    ([truth]).  The message of an exception that the interpreter raises,
    not a [raise] of the source, is abridged: the interpreter's text names
    the type of the object at fault, which the values here do not keep. *)
Inductive exn : Type :=
| TypeError (msg : string)
| ValueError (msg : string)
| KeyError (key : string)
| IndexError (msg : string)
| AttributeError (msg : string)
| TaskError (tag : Z)
| FatalError (tag : Z)
| UserError (tag : Z) (under_exception truth : bool).

(** [isinstance(e, Exception)]. *)
Definition is_Exception (e : exn) : bool :=
  match e with
  | FatalError _ => false
  | UserError _ under_exception _ => under_exception
  | _ => true
  end.

(** [bool(e)], what [if exc:] tests: an instance of a class that defines
    neither [__bool__] nor [__len__] is truthy. *)
Definition truthy (e : exn) : bool :=
  match e with
  | UserError _ _ truth => truth
  | _ => true
  end.

(** What a call gives: a value, or an exception. *)
Inductive res (A : Type) : Type :=
| Ok (a : A)
| Err (e : exn).
Arguments Ok {A} a.
Arguments Err {A} e.

(** The values tasks and actions exchange.  [VInfo i] is a reference to the
    record created with id [i]; [VAllInfo] is a reference to the registry
    dict [coro_info]. *)
Inductive value (coroutine : Type) : Type :=
| VNone
| VInt (n : Z)
| VStr (s : string)
| VCoro (c : coroutine)
| VInfo (i : nat)
| VAllInfo.
Arguments VNone {coroutine}.
Arguments VInt {coroutine} n.
Arguments VStr {coroutine} s.
Arguments VCoro {coroutine} c.
Arguments VInfo {coroutine} i.
Arguments VAllInfo {coroutine}.

(** [_icall] yields the triple [(name, args, kwargs)]. *)
Record request (coroutine : Type) : Type := Request {
  req_name : string;
  req_args : list (value coroutine);
  req_kwargs : list (string * value coroutine)
}.
Arguments Request {coroutine} _ _ _.
Arguments req_name {coroutine} _.
Arguments req_args {coroutine} _.
Arguments req_kwargs {coroutine} _.

(** [coro.send(v)] and [coro.throw(e)]: the coroutine yields a request and
    is left in state [c'], or raises [StopIteration(v)], or raises [e]. *)
Inductive outcome (coroutine : Type) : Type :=
| Yielded (req : request coroutine) (c' : coroutine)
| Returned (v : value coroutine)
| Raised (e : exn).
Arguments Yielded {coroutine} req c'.
Arguments Returned {coroutine} v.
Arguments Raised {coroutine} e.

(** What an actions dict or [locals()] may hold: one of the closures that
    [run] defines, an action of the embedder, or anything else (not
    callable).  An action of the embedder is taken to run to its result
    without suspending into an outer loop. *)
Inductive pyobj (coroutine closure : Type) : Type :=
| Closure (b : closure)
| Handler (h : list (value coroutine) -> list (string * value coroutine)
               -> res (value coroutine))
| Opaque.
Arguments Closure {coroutine closure} b.
Arguments Handler {coroutine closure} h.
Arguments Opaque {coroutine closure}.

(** The [actions] argument: a dict, or something that is not one. *)
Inductive pyactions (coroutine closure : Type) : Type :=
| NotADict
| Dict (m : gmap string (pyobj coroutine closure)).
Arguments NotADict {coroutine closure}.
Arguments Dict {coroutine closure} m.

(** [repr] of a [str], what [{name!r}] formats: the text goes between
    single quotes, or between double quotes when it holds a single quote and
    no double quote; the backslash, the quote in use, and the control
    characters are escaped.  A byte above 127 is part of a character outside
    ASCII, taken to be printable and left as it is. *)
Definition double_quote : Ascii.ascii := Ascii.ascii_of_nat 34.

Definition hex_digit (n : nat) : Ascii.ascii :=
  nth n (String.list_ascii_of_string "0123456789abcdef") "0"%char.

Definition holds (c : Ascii.ascii) (s : string) : bool :=
  existsb (Ascii.eqb c) (String.list_ascii_of_string s).

Definition escape (quote c : Ascii.ascii) : string :=
  let n := Ascii.nat_of_ascii c in
  if (Ascii.eqb c quote || Ascii.eqb c "\")%bool then String "\" (String c EmptyString)
  else if (n =? 9)%nat then "\t"
  else if (n =? 10)%nat then "\n"
  else if (n =? 13)%nat then "\r"
  else if ((n <? 32) || (n =? 127))%nat%bool
       then String "\" (String "x" (String (hex_digit (n / 16)) (String (hex_digit (n mod 16)) EmptyString)))
  else String c EmptyString.

Definition repr (name : string) : string :=
  let quote := if (holds "'" name && negb (holds double_quote name))%bool
               then double_quote else "'"%char in
  (String quote (String.concat "" (map (escape quote) (String.list_ascii_of_string name)))
     ++ String quote EmptyString)%string.

Section Base.
Context {coroutine closure : Type}.
Abbreviation obj := (pyobj coroutine closure).

(** The [for name in cls._reserved] loop of [_check_actions]: the dict as
    the loop leaves it, and the exception raised, if any. *)
Fixpoint _check_reserved (reserved : list string) (actions locals_ : gmap string obj)
  : gmap string obj * option exn :=
  match reserved with
  | [] => (actions, None)
  | name :: rest =>
      match actions !! name with
      | Some _ => (actions, Some (ValueError (repr name ++ " is in 'actions'")%string))
      | None =>
          match locals_ !! name with
          | None => (actions, Some (ValueError (repr name ++ " is not in 'locals_'")%string))
          | Some f => _check_reserved rest (<[name := f]> actions) locals_
          end
      end
  end.

Definition _check_actions (reserved : list string) (actions : pyactions coroutine closure)
    (locals_ : gmap string obj) : pyactions coroutine closure * option exn :=
  match actions with
  | NotADict => (NotADict, Some (TypeError "'actions' is not an instance of 'dict'"))
  | Dict m => let '(m', r) := _check_reserved reserved m locals_ in (Dict m', r)
  end.

(** [_action_getter(actions)]: look [name] up in [actions] and await its call
    on the unpacked [args] and [kwargs].  A closure of [run] acts on the
    engine state [S] through [call]. *)
Definition _action_getter {S : Type}
    (call : closure -> list (value coroutine) -> list (string * value coroutine)
            -> S -> res (value coroutine) * S)
    (actions : gmap string obj) (req : request coroutine) (st : S)
  : res (value coroutine) * S :=
  match actions !! req_name req with
  | None => (Err (KeyError (req_name req)), st)
  | Some (Closure b) => call b (req_args req) (req_kwargs req) st
  | Some (Handler h) => (h (req_args req) (req_kwargs req), st)
  | Some Opaque => (Err (TypeError "object is not callable"), st)
  end.

(** A function object handed to [_adder]: its [__name__], when it has one,
    and what the dict holds for it. *)
Record pyfunc : Type := Func {
  func_name : option string;
  func_obj : obj
}.

(** [_action_adder(actions)] gives [_adder(func, name=None)]: the dict as
    [_adder] leaves it, and what [_adder] returns. *)
Definition _action_adder (actions : gmap string obj) (func : pyfunc) (name : option string)
  : gmap string obj * res pyfunc :=
  match name with
  | Some n => (<[n := func_obj func]> actions, Ok func)
  | None =>
      match func_name func with
      | Some n => (<[n := func_obj func]> actions, Ok func)
      | None => (actions, Err (AttributeError "object has no attribute '__name__'"))
      end
  end.

Context (send : coroutine -> value coroutine -> outcome coroutine).
Context (throw : coroutine -> exn -> outcome coroutine).

(** [o.send(v)] and [o.throw(e)] on any object [o]. *)
Definition obj_send (o v : value coroutine) : outcome coroutine :=
  match o with
  | VCoro c => send c v
  | _ => Raised (AttributeError "object has no attribute 'send'")
  end.

Definition obj_throw (o : value coroutine) (e : exn) : outcome coroutine :=
  match o with
  | VCoro c => throw c e
  | _ => Raised (AttributeError "object has no attribute 'throw'")
  end.

End Base.

End IBase.

(** ** IStack: the trampoline runner *)

Module IStack.
Import IBase.

Inductive closure : Type := StackAdd.

Definition _reserved : list string := ["stack_add"].

Section Run.
Context {coroutine : Type}.
Context (send : coroutine -> value coroutine -> outcome coroutine).
Context (throw : coroutine -> exn -> outcome coroutine).
Abbreviation obj := (pyobj coroutine closure).

(** The variables of the loop: the frame list (top last), the pending
    value and the pending exception. *)
Record state : Type := State {
  stack : list (value coroutine);
  val : value coroutine;
  exc : option exn
}.

(** [async def stack_add(coro): stack.append(coro)], called on the unpacked
    [args] and [kwargs] of the request. *)
Definition stack_add (args : list (value coroutine)) (kwargs : list (string * value coroutine))
    (stk : list (value coroutine)) : res (value coroutine) * list (value coroutine) :=
  match args, kwargs with
  | [c], [] => (Ok VNone, stk ++ [c])
  | [], [(k, c)] =>
      if String.eqb k "coro" then (Ok VNone, stk ++ [c])
      else (Err (TypeError "stack_add() got an unexpected keyword argument"), stk)
  | _, _ => (Err (TypeError "stack_add() takes 1 positional argument"), stk)
  end.

Definition call (b : closure) := match b with StackAdd => stack_add end.

(** [locals()] where [run] calls [_check_actions]: [stack], [get_action],
    [val] and [exc] are not bound yet. *)
Definition run_locals : gmap string obj :=
  <["stack_add" := Closure StackAdd]>
    (<["actions" := Opaque]> (<["coro" := Opaque]> (<["cls" := Opaque]> ∅))).

(** [if exc: req = stack[-1].throw(exc)], [else: req = stack[-1].send(val)]:
    [exc] is tested for its truth value, so a pending exception whose
    instance is falsy is not thrown. *)
Definition resume_top (st : state) : outcome coroutine :=
  match last (stack st) with
  | None => Raised (IndexError "list index out of range")
  | Some top =>
      match exc st with
      | Some e => if truthy e then obj_throw throw top e
                  else obj_send send top (val st)
      | None => obj_send send top (val st)
      end
  end.

(** The [except BaseException as e] clause, for an [e] that is not a
    [StopIteration]; and for [StopIteration(v)]. *)
Definition on_raise (stk : list (value coroutine)) (e : exn) : state + res (value coroutine) :=
  if (1 <? length stk)%nat then inl (State (removelast stk) VNone (Some e))
  else inr (Err e).

Definition on_return (stk : list (value coroutine)) (v : value coroutine)
  : state + res (value coroutine) :=
  if (1 <? length stk)%nat then inl (State (removelast stk) v None)
  else inr (Ok v).

(** One turn of the [while True] loop: the next state, or what [run]
    returns or raises. *)
Definition iteration (actions : gmap string obj) (st : state)
  : state + res (value coroutine) :=
  match resume_top st with
  | Yielded req c' =>
      let stk := <[pred (length (stack st)) := VCoro c']> (stack st) in
      match _action_getter call actions req stk with
      | (Ok v, stk') => inl (State stk' v None)
      | (Err e, stk') =>
          if is_Exception e then inl (State stk' VNone (Some e))
          else on_raise stk' e
      end
  | Returned v => on_return (stack st) v
  | Raised e => on_raise (stack st) e
  end.

Fixpoint loop (fuel : nat) (actions : gmap string obj) (st : state)
  : option (res (value coroutine)) :=
  match fuel with
  | O => None
  | S fuel' =>
      match iteration actions st with
      | inl st' => loop fuel' actions st'
      | inr r => Some r
      end
  end.


(** [IStack.run(coro, actions=actions)]: the actions object as [run] leaves
    it, and the result ([None]: the budget ran out). *)
Definition run (fuel : nat) (coro : value coroutine) (actions : pyactions coroutine closure)
  : pyactions coroutine closure * option (res (value coroutine)) :=
  match _check_actions _reserved actions run_locals with
  | (actions', Some e) => (actions', Some (Err e))
  | (Dict m, None) => (Dict m, loop fuel m (State [coro] VNone None))
  | (NotADict, None) => (NotADict, None)
  end.

End Run.

Arguments state coroutine : clear implicits.

End IStack.

(** ** IRotator: the multi-task rotator *)

Module IRotator.
Import IBase.

(** The six async closures that [run] binds under the reserved names. *)
Inductive closure : Type := NewCoro | WaitCoro | ThisId | ThisInfo | AllInfo | Schedule.

Definition _reserved : list string :=
  ["new_coro"; "wait_coro"; "this_id"; "this_info"; "all_info"; "schedule"].

Section Run.
Context {coroutine : Type}.
Context (send : coroutine -> value coroutine -> outcome coroutine).
Context (throw : coroutine -> exn -> outcome coroutine).
Abbreviation obj := (pyobj coroutine closure).

(** A coro info dict.  [waiting_coros] holds references to other info
    dicts: the ids they were created with. *)
Record info : Type := Info {
  val : value coroutine;
  exc : option exn;
  coro : value coroutine;
  active : bool;
  terminated : bool;
  waiting_coros : list nat
}.

(** The state [run] keeps.  [coro_info] is the registry dict: its keys in
    insertion order.  An info dict outlives its registry entry (through
    [main_info], through [waiting_coros], through what tasks hold), so the
    info dicts live in [records], under the id they were created with.
    [id_] is the counter of [_new_coro_adder].  Tasks and actions are
    handed references to these dicts ([new_coro], [this_info],
    [all_info]); they are taken to read them only, so that the records
    change through the closures and the loop alone.  [resumed] is not in
    the source: it lists, in order, the id of the record whose coroutine each
    [send] or [throw] of the inner loop resumed. *)
Record state : Type := State {
  coro_info : list nat;
  records : gmap nat info;
  id_ : nat;
  resumed : list nat
}.

Definition upd (i : nat) (f : info -> info) (st : state) : state :=
  State (coro_info st) (alter f i (records st)) (id_ st) (resumed st).

Definition set_coro (c : value coroutine) (r : info) : info :=
  Info (val r) (exc r) c (active r) (terminated r) (waiting_coros r).

Definition set_pending (v : value coroutine) (e : option exn) (r : info) : info :=
  Info v e (coro r) (active r) (terminated r) (waiting_coros r).

Definition set_active (b : bool) (r : info) : info :=
  Info (val r) (exc r) (coro r) b (terminated r) (waiting_coros r).

Definition add_waiter (w : nat) (r : info) : info :=
  Info (val r) (exc r) (coro r) (active r) (terminated r) (waiting_coros r ++ [w]).

Definition cinfo_active (cid : nat) (st : state) : bool :=
  match records st !! cid with Some r => active r | None => false end.

Definition cinfo_terminated (cid : nat) (st : state) : bool :=
  match records st !! cid with Some r => terminated r | None => false end.

(** The dict literal of [_new_coro_adder]. *)
Definition new_info (c : value coroutine) : info := Info VNone None c true false [].

(** [coro_adder.send(coro)]: the new info goes under key [id_]. *)
Definition coro_adder_send (c : value coroutine) (st : state) : nat * state :=
  (id_ st,
   State (coro_info st ++ [id_ st]) (<[id_ st := new_info c]> (records st))
         (S (id_ st)) (resumed st)).

(** [cinfo["active"] = False], [cinfo] being the record of [cid]. *)
Definition _suspend (cid : nat) (st : state) : state := upd cid (set_active false) st.

(** [async def new_coro(coro, /)]. *)
Definition new_coro (args : list (value coroutine)) (kwargs : list (string * value coroutine))
    (st : state) : res (value coroutine) * state :=
  match args, kwargs with
  | [c], [] => let '(i, st') := coro_adder_send c st in (Ok (VInfo i), st')
  | _, _ => (Err (TypeError "new_coro() takes 1 positional argument"), st)
  end.

(** [async def wait_coro(info, /)].  Subscripting something that is not an
    info dict raises. *)
Definition wait_coro (cid : nat) (args : list (value coroutine))
    (kwargs : list (string * value coroutine)) (st : state)
  : res (value coroutine) * state :=
  match args, kwargs with
  | [VInfo i], [] =>
      match records st !! i with
      | Some r =>
          if terminated r then (Ok VNone, st)
          else (Ok VNone, _suspend cid (upd i (add_waiter cid) st))
      | None => (Err (KeyError "terminated"), st)
      end
  | [VAllInfo], [] => (Err (KeyError "terminated"), st)
  | [_], [] => (Err (TypeError "object is not subscriptable"), st)
  | _, _ => (Err (TypeError "wait_coro() takes 1 positional argument"), st)
  end.

Definition no_arguments (args : list (value coroutine)) (kwargs : list (string * value coroutine))
  : bool :=
  match args, kwargs with
  | [], [] => true
  | _, _ => false
  end.

(** The closures, called for the record [cid] the sweep is at.  The first
    component of the state is the local [active] of the sweep, which
    [_pull_active] clears. *)
Definition call (cid : nat) (b : closure) (args : list (value coroutine))
    (kwargs : list (string * value coroutine)) (s : bool * state)
  : res (value coroutine) * (bool * state) :=
  match b with
  | NewCoro => let '(r, st') := new_coro args kwargs (snd s) in (r, (fst s, st'))
  | WaitCoro => let '(r, st') := wait_coro cid args kwargs (snd s) in (r, (fst s, st'))
  | ThisId =>
      if no_arguments args kwargs then (Ok (VInt (Z.of_nat cid)), s)
      else (Err (TypeError "this_id() takes 0 positional arguments"), s)
  | ThisInfo =>
      if no_arguments args kwargs then (Ok (VInfo cid), s)
      else (Err (TypeError "this_info() takes 0 positional arguments"), s)
  | AllInfo =>
      if no_arguments args kwargs then (Ok VAllInfo, s)
      else (Err (TypeError "all_info() takes 0 positional arguments"), s)
  | Schedule =>
      if no_arguments args kwargs then (Ok VNone, (false, snd s))
      else (Err (TypeError "schedule() takes 0 positional arguments"), s)
  end.

(** [locals()] where [run] calls [_check_actions]. *)
Definition run_locals : gmap string obj :=
  <["schedule" := Closure Schedule]>
    (<["all_info" := Closure AllInfo]>
      (<["this_info" := Closure ThisInfo]>
        (<["this_id" := Closure ThisId]>
          (<["wait_coro" := Closure WaitCoro]>
            (<["new_coro" := Closure NewCoro]>
              (<["_new_coro_adder" := Opaque]>
                (<["_check_info" := Opaque]>
                  (<["_pull_active" := Opaque]>
                    (<["_suspend" := Opaque]>
                      (<["actions" := Opaque]>
                        (<["coro" := Opaque]> (<["cls" := Opaque]> ∅)))))))))))).

(** [if exc := cinfo["exc"]: req = cinfo["coro"].throw(exc)],
    [else: req = cinfo["coro"].send(cinfo["val"])]: the test is on the
    truth value of [exc]. *)
Definition resume (r : info) : outcome coroutine :=
  match exc r with
  | Some e => if truthy e then obj_throw throw (coro r) e
              else obj_send send (coro r) (val r)
  | None => obj_send send (coro r) (val r)
  end.

(** The body of [for info in cinfo["waiting_coros"]]. *)
Definition wake (r : info) : info :=
  if terminated r then r
  else Info VNone None (coro r) true (terminated r) (waiting_coros r).

(** The [except BaseException] clause up to [del coro_info[cid]]. *)
Definition wake_all (waiting : list nat) (st : state) : state :=
  foldl (fun s i => upd i wake s) st waiting.

(** [cinfo["active"] = False], [cinfo["terminated"] = True] and the
    assignment of [val] and [exc]. *)
Definition set_terminated (v : value coroutine) (e : option exn) (r : info) : info :=
  Info v e (coro r) false true (waiting_coros r).

Definition cinfo_waiting (cid : nat) (st : state) : list nat :=
  match records st !! cid with Some r => waiting_coros r | None => [] end.

(** [del coro_info[cid]]. *)
Definition del_coro_info (cid : nat) (st : state) : state :=
  State (filter (fun i => i ≠ cid) (coro_info st)) (records st) (id_ st) (resumed st).

(** The [except BaseException] clause up to [del coro_info[cid]]. *)
Definition terminate (cid : nat) (v : value coroutine) (e : option exn) (st : state) : state :=
  let st1 := upd cid (set_terminated v e) st in
  del_coro_info cid (wake_all (cinfo_waiting cid st1) st1).

Inductive status : Type := Normal | Abort (e : exn) | OutOfFuel.

Definition log (cid : nat) (st : state) : state :=
  State (coro_info st) (records st) (id_ st) (resumed st ++ [cid]).

(** One turn of [while active and cinfo["active"]], the [except] clause
    included: on the left the loop goes on with the local [active] and the
    state; on the right the [try] statement is left. *)
Definition turn (actions : gmap string obj) (cid : nat) (active : bool) (st : state)
  : (bool * state) + (state * status) :=
  match records st !! cid with
  | None => inr (st, Normal)
  | Some r =>
      let st0 := log cid st in
      match resume r with
      | Yielded req c' =>
          let st1 := upd cid (set_coro (VCoro c')) st0 in
          match _action_getter (call cid) actions req (active, st1) with
          | (Ok v, (a, st2)) => inl (a, upd cid (set_pending v None) st2)
          | (Err e, (a, st2)) =>
              if is_Exception e then inl (a, upd cid (set_pending VNone (Some e)) st2)
              else inr (terminate cid VNone (Some e) st2, Abort e)
          end
      | Returned v => inr (terminate cid v None st0, Normal)
      | Raised e =>
          inr (terminate cid VNone (Some e) st0, if is_Exception e then Normal else Abort e)
      end
  end.

(** The inner [while]; the boolean returned is the local [active] on exit. *)
Fixpoint drive (fuel : nat) (actions : gmap string obj) (cid : nat) (active : bool)
    (st : state) : bool * state * status :=
  if active && cinfo_active cid st then
    match fuel with
    | O => (active, st, OutOfFuel)
    | S fuel' =>
        match turn actions cid active st with
        | inl (a, st') => drive fuel' actions cid a st'
        | inr (st', s) => (active, st', s)
        end
    end
  else (active, st, Normal).

(** The body of the [for] loop.  [_check_info(cinfo)] changes nothing: every
    record is created by [_new_coro_adder] with all its keys. *)
Definition visit (fuel : nat) (actions : gmap string obj) (cid : nat) (st : state)
  : bool * state * status :=
  drive fuel actions cid (cinfo_active cid st) st.

Fixpoint sweep_over (fuel : nat) (actions : gmap string obj) (snapshot : list nat)
    (st : state) : state * status :=
  match snapshot with
  | [] => (st, Normal)
  | cid :: rest =>
      match visit fuel actions cid st with
      | (_, st', Normal) => sweep_over fuel actions rest st'
      | (_, st', s) => (st', s)
      end
  end.

(** One sweep: [for cid, cinfo in list(reversed(coro_info.items()))]. *)
Definition sweep (fuel : nat) (actions : gmap string obj) (st : state) : state * status :=
  sweep_over fuel actions (rev (coro_info st)) st.

(** [get_result(info)]: [if exc := info.get("exc", False): raise exc],
    then [return info.get("val")].  The test is on the truth value of
    [exc]. *)
Definition get_result (r : info) : res (value coroutine) :=
  match exc r with
  | Some e => if truthy e then Err e else Ok (val r)
  | None => Ok (val r)
  end.

(** [while not main_info["terminated"]: ...; return cls.get_result(main_info)]:
    [steps] bounds each inner loop, [fuel] the number of sweeps. *)
Fixpoint main_loop (steps fuel : nat) (actions : gmap string obj) (main : nat) (st : state)
  : option (res (value coroutine)) :=
  match records st !! main with
  | None => None
  | Some r =>
      if terminated r then Some (get_result r)
      else
        match fuel with
        | O => None
        | S fuel' =>
            match sweep steps actions st with
            | (st', Normal) => main_loop steps fuel' actions main st'
            | (_, Abort e) => Some (Err e)
            | (_, OutOfFuel) => None
            end
        end
  end.


(** The state after [main_info = coro_adder.send(coro)]: the main record
    has id 0. *)
Definition start (c : value coroutine) : state :=
  snd (coro_adder_send c (State [] ∅ 0 [])).

(** *** Well-formed states

    What the loop keeps true of the registry and the records: ids below
    the counter; the registry lists, oldest first, records that are not
    terminated; a terminated record is inactive. *)
Definition wf (st : state) : Prop :=
  (forall i r, records st !! i = Some r -> i < id_ st)
  /\ (forall i, i ∈ coro_info st ->
        exists r, records st !! i = Some r /\ terminated r = false)
  /\ (forall i r, records st !! i = Some r -> terminated r = true -> active r = false)
  /\ StronglySorted lt (coro_info st).

(** The record [cid] exists and is not terminated. *)
Definition live (cid : nat) (st : state) : Prop :=
  exists r, records st !! cid = Some r /\ terminated r = false.

(** [st'] comes after [st] by resuming only records among [V]: the counter
    does not go back; [resumed] grows by ids of [V]; a registered record
    outside [V] stays registered; a record created in between is
    registered; a terminated record is left as it is. *)
Definition follows (V : list nat) (st st' : state) : Prop :=
  id_ st <= id_ st'
  /\ (exists l, resumed st' = resumed st ++ l /\ forall x, x ∈ l -> x ∈ V)
  /\ (forall i, i ∈ coro_info st -> i ∉ V -> i ∈ coro_info st')
  /\ (forall i, id_ st <= i -> i < id_ st' -> i ∈ coro_info st')
  /\ (forall X r, records st !! X = Some r -> terminated r = true ->
                  records st' !! X = Some r).

(** What resuming other records may do to a record: add to its
    [waiting_coros], and wake it, which sets [active] and clears [val] and
    [exc]. *)
Definition undisturbed (r r' : info) : Prop :=
  coro r' = coro r
  /\ terminated r' = terminated r
  /\ (active r = true -> active r' = true)
  /\ ((val r' = val r /\ exc r' = exc r) \/ (val r' = VNone /\ exc r' = None)).

(** No registered record is active: a sweep has nothing to resume. *)
Definition idle (st : state) : Prop :=
  forall i, i ∈ coro_info st -> cinfo_active i st = false.

(** Every record that is not terminated is registered. *)
Definition complete (st : state) : Prop :=
  forall i r, records st !! i = Some r -> terminated r = false -> i ∈ coro_info st.

(** [IRotator.run(coro, actions=actions)]. *)
Definition run (fuel : nat) (c : value coroutine) (actions : pyactions coroutine closure)
  : pyactions coroutine closure * option (res (value coroutine)) :=
  match _check_actions _reserved actions run_locals with
  | (actions', Some e) => (actions', Some (Err e))
  | (Dict m, None) => (Dict m, main_loop fuel fuel m 0 (start c))
  | (NotADict, None) => (NotADict, None)
  end.

End Run.

Arguments info coroutine : clear implicits.
Arguments state coroutine : clear implicits.

End IRotator.

(** ** Scripted coroutines

    Straight-line coroutines to run the engines on: each instruction is an
    [await] of a request, a [return] or a [raise]. *)

Module Script.
Import IBase.

Inductive arg : Type :=
| Lit (n : Z)
| Last
| Spawn (body : list instr)
with instr : Type :=
| Call (name : string) (args : list arg)
| Caught
| Return (a : arg)
| Raise (e : exn).

(** A coroutine object: the instructions it has left. *)
Definition task : Type := list instr.

(** [Last] is what the coroutine was resumed with; [Spawn body] makes a new
    coroutine object. *)
Definition eval (last : value task) (a : arg) : value task :=
  match a with
  | Lit n => VInt n
  | Last => last
  | Spawn body => VCoro body
  end.

(** Running off the end returns [None].  [Caught] marks that the [await]
    before it stood in a [try] whose handler passes. *)
Fixpoint exec (code : task) (last : value task) : outcome task :=
  match code with
  | [] => Returned VNone
  | Call name args :: rest => Yielded (Request name (map (eval last) args) []) rest
  | Caught :: rest => exec rest last
  | Return a :: _ => Returned (eval last a)
  | Raise e :: _ => Raised e
  end.

Definition send (c : task) (v : value task) : outcome task := exec c v.

Definition throw (c : task) (e : exn) : outcome task :=
  match c with
  | Caught :: rest => exec rest VNone
  | _ => Raised e
  end.

(** [nest n k]: [n] nested [stack_add]s around a coroutine that returns
    [k] at once. *)
Fixpoint nest (n : nat) (k : Z) : task :=
  match n with
  | O => [Return (Lit k)]
  | S n' => [Call "stack_add" [Spawn (nest n' k)]; Return Last]
  end.

(** A coroutine that returns [5] at once, and a root that spawns it, waits
    for it and returns [9]. *)
Definition child : task := [Return (Lit 5)].

Definition waiter : task :=
  [Call "new_coro" [Spawn child]; Call "wait_coro" [Last]; Return (Lit 9)].

(** A root that goes on for two more sweeps after the child it waited
    for has ended. *)
Definition lingerer : task :=
  [Call "new_coro" [Spawn child]; Call "wait_coro" [Last];
   Call "schedule" []; Call "schedule" []; Return (Lit 0)].

(** A coroutine that raises when first resumed, and one that calls it
    through [stack_add] without catching. *)
Definition failing : task := [Raise (TaskError 1)].

Definition caller : task := [Call "stack_add" [Spawn failing]; Return Last].

(** A coroutine that yields for a cycle and returns [1]; a root that
    spawns three of them, yields for a cycle and returns [0]; a root that
    spawns one and yields. *)
Definition yielder : task := [Call "schedule" []; Return (Lit 1)].

Definition spawn3 : task :=
  [Call "new_coro" [Spawn yielder]; Call "new_coro" [Spawn yielder];
   Call "new_coro" [Spawn yielder]; Call "schedule" []; Return (Lit 0)].

Definition spawner : task :=
  [Call "new_coro" [Spawn child]; Call "schedule" []; Return (Lit 0)].

(** An action [echo(x)] that returns [x], a task that asks for [echo(42)]
    and returns the answer, and one that asks for an action nobody
    registered. *)
Definition echo (args : list (value task)) (kwargs : list (string * value task))
  : res (value task) :=
  match args, kwargs with
  | [x], [] => Ok x
  | _, _ => Err (TypeError "echo() takes 1 positional argument")
  end.

Definition asker : task := [Call "echo" [Lit 42]; Return Last].

Definition stray : task := [Call "nobody" []; Return (Lit 0)].

(** An action that raises an exception outside [Exception]. *)
Definition interrupt (args : list (value task)) (kwargs : list (string * value task))
  : res (value task) := Err (FatalError 2).

(** A task that waits for its own record, and one that ends on an
    exception outside [Exception]. *)
Definition self_waiter : task :=
  [Call "this_info" []; Call "wait_coro" [Last]; Return (Lit 0)].

Definition interrupted : task := [Raise (FatalError 2)].







(** The actions dict [IRotator.run] works with when it is given [{}]. *)
Definition rotator_actions : gmap string (pyobj task IRotator.closure) :=
  fst (_check_reserved IRotator._reserved ∅ IRotator.run_locals).

End Script.

(** * Properties *)

Import IBase.

(** ** Setup: [_check_actions] *)

Section Setup.
Context {coroutine closure : Type}.
Implicit Types m : gmap string (pyobj coroutine closure).
Implicit Types reserved pre post : list string.

(** A run of the loop over names that all pass binds each of them and
    touches nothing else. *)
Lemma _check_reserved_app pre post m (locals_ : gmap string (pyobj coroutine closure)) :
  NoDup pre ->
  (forall n, n ∈ pre -> m !! n = None /\ is_Some (locals_ !! n)) ->
  exists m',
    _check_reserved (pre ++ post) m locals_ = _check_reserved post m' locals_
    /\ (forall n, n ∈ pre -> m' !! n = locals_ !! n)
    /\ (forall n, n ∉ pre -> m' !! n = m !! n).
Proof.
  revert m. induction pre as [|a pre IH]; intros m Hnd Hpre.
  - exists m. split; [reflexivity|]. split; [|reflexivity].
    intros n Hn. inversion Hn.
  - apply NoDup_cons in Hnd as [Ha Hnd].
    destruct (Hpre a) as [Hma [f Hf]]; [left|].
    destruct (IH (<[a := f]> m) Hnd) as (m' & Heq & Hin & Hout).
    { intros n Hn. destruct (Hpre n) as [Hmn Hln]; [by right|]. split; [|done].
      rewrite lookup_insert_ne; [done|]. intros ->. contradiction. }
    exists m'. split; [|split].
    + simpl. rewrite Hma, Hf. exact Heq.
    + intros n Hn. apply elem_of_cons in Hn as [->|Hn]; [|by apply Hin].
      rewrite (Hout a Ha), lookup_insert_eq. by rewrite Hf.
    + intros n Hn. apply not_elem_of_cons in Hn as [Hna Hn].
      rewrite (Hout n Hn). by rewrite lookup_insert_ne.
Qed.

Lemma _check_reserved_ok reserved m (locals_ : gmap string (pyobj coroutine closure)) :
  NoDup reserved ->
  (forall n, n ∈ reserved -> m !! n = None /\ is_Some (locals_ !! n)) ->
  exists m',
    _check_reserved reserved m locals_ = (m', None)
    /\ (forall n, n ∈ reserved -> m' !! n = locals_ !! n)
    /\ (forall n, n ∉ reserved -> m' !! n = m !! n).
Proof.
  intros Hnd Hall.
  destruct (_check_reserved_app reserved [] m locals_ Hnd Hall) as (m' & Heq & H1 & H2).
  exists m'. rewrite app_nil_r in Heq. by rewrite Heq.
Qed.



End Setup.

Lemma IStack_reserved_NoDup : NoDup IStack._reserved.
Proof. unfold IStack._reserved. apply NoDup_singleton. Qed.

Lemma IRotator_reserved_NoDup : NoDup IRotator._reserved.
Proof. compute_done. Qed.

Ltac each_name H :=
  repeat (apply elem_of_cons in H as [->|H]); [..|by apply elem_of_nil in H].

Lemma IStack_locals_bound {coroutine : Type} n :
  n ∈ IStack._reserved -> is_Some (@IStack.run_locals coroutine !! n).
Proof. intros H. unfold IStack._reserved in H. each_name H; eexists; reflexivity. Qed.

Lemma IRotator_locals_bound {coroutine : Type} n :
  n ∈ IRotator._reserved -> is_Some (@IRotator.run_locals coroutine !! n).
Proof. intros H. unfold IRotator._reserved in H. each_name H; eexists; reflexivity. Qed.

Section SetupRun.
Context {coroutine : Type}.
Context (send : coroutine -> value coroutine -> outcome coroutine).
Context (throw : coroutine -> exn -> outcome coroutine).








(** C10.  The loop of [_check_actions] binds the reserved names one at a
    time: when a name fails after the names [pre] have passed, the dict is
    left with every name of [pre] bound and nothing else changed, so it
    differs from the caller's dict as soon as [pre] is not empty.
    [IRotator.run] on a dict that holds [schedule] raises after binding
    the five names before it. *)
Theorem setup_not_atomic :
  (forall (closure : Type) pre name post (m locals_ : gmap string (pyobj coroutine closure)),
     NoDup pre ->
     (forall n, n ∈ pre -> m !! n = None /\ is_Some (locals_ !! n)) ->
     is_Some (m !! name) \/ name ∈ pre \/ locals_ !! name = None ->
     exists m' e,
       _check_actions (pre ++ name :: post) (Dict m) locals_ = (Dict m', Some e)
       /\ (forall n, n ∈ pre -> m' !! n = locals_ !! n /\ is_Some (m' !! n))
       /\ (forall n, n ∉ pre -> m' !! n = m !! n)
       /\ (pre <> [] -> m' <> m))
  /\ (forall fuel c h,
        exists m',
          IRotator.run send throw fuel c (Dict {["schedule" := h]})
            = (Dict m', Some (Err (ValueError "'schedule' is in 'actions'")))
          /\ m' !! "schedule" = Some h
          /\ m' !! "new_coro" = Some (Closure IRotator.NewCoro)
          /\ m' !! "wait_coro" = Some (Closure IRotator.WaitCoro)
          /\ m' !! "this_id" = Some (Closure IRotator.ThisId)
          /\ m' !! "this_info" = Some (Closure IRotator.ThisInfo)
          /\ m' !! "all_info" = Some (Closure IRotator.AllInfo)
          /\ m' <> {["schedule" := h]}).
Proof.
  assert (Hgen : forall (closure : Type) pre name post
                   (m locals_ : gmap string (pyobj coroutine closure)),
     NoDup pre ->
     (forall n, n ∈ pre -> m !! n = None /\ is_Some (locals_ !! n)) ->
     is_Some (m !! name) \/ name ∈ pre \/ locals_ !! name = None ->
     exists m' e,
       _check_reserved (pre ++ name :: post) m locals_ = (m', Some e)
       /\ (is_Some (m' !! name) -> e = ValueError (repr name ++ " is in 'actions'")%string)
       /\ (forall n, n ∈ pre -> m' !! n = locals_ !! n /\ is_Some (m' !! n))
       /\ (forall n, n ∉ pre -> m' !! n = m !! n)
       /\ (pre <> [] -> m' <> m)).
  { intros closure pre name post m locals_ Hnd Hpre Hfail.
    destruct (_check_reserved_app pre (name :: post) m locals_ Hnd Hpre)
      as (m' & Heq & Hin & Hout).
    assert (Hfail' : is_Some (m' !! name) \/ locals_ !! name = None).
    { destruct Hfail as [Hm|[Hp|Hl]]; [|left|by right].
      - destruct (decide (name ∈ pre)) as [Hp|Hp].
        + left. rewrite (Hin _ Hp). by apply Hpre.
        + left. by rewrite (Hout _ Hp).
      - rewrite (Hin _ Hp). by apply Hpre. }
    assert (Hres : exists e, _check_reserved (name :: post) m' locals_ = (m', Some e)
              /\ (is_Some (m' !! name) -> e = ValueError (repr name ++ " is in 'actions'")%string)).
    { simpl. destruct (m' !! name) as [x|] eqn:Hx.
      - eexists. split; [reflexivity|done].
      - destruct Hfail' as [[y Hy]|Hl]; [discriminate|]. rewrite Hl.
        eexists. split; [reflexivity|]. intros [y Hy]. discriminate. }
    destruct Hres as (e & Hres & He).
    exists m', e. split; [by rewrite Heq|]. split; [done|].
    split; [|split; [done|]].
    - intros n Hn. rewrite (Hin n Hn). split; [done|by apply Hpre].
    - intros Hne Hmm. destruct pre as [|a pre]; [done|].
      assert (Ha : a ∈ a :: pre) by left.
      destruct (Hpre a Ha) as [Hma [f Hf]].
      specialize (Hin a Ha). rewrite Hmm, Hma, Hf in Hin. discriminate. }
  split.
  - intros closure pre name post m locals_ Hnd Hpre Hfail.
    destruct (Hgen closure pre name post m locals_ Hnd Hpre Hfail)
      as (m' & e & Heq & _ & H1 & H2 & H3).
    exists m', e. unfold _check_actions. rewrite Heq. done.
  - intros fuel c h.
    destruct (Hgen IRotator.closure
                ["new_coro"; "wait_coro"; "this_id"; "this_info"; "all_info"]
                "schedule" [] {["schedule" := h]} IRotator.run_locals)
      as (m' & e & Heq & He & Hin & Hout & Hne).
    { compute_done. }
    { intros n Hn. each_name Hn; (split; [reflexivity|eexists; reflexivity]). }
    { left. eexists. apply lookup_singleton_eq. }
    assert (Hs : m' !! "schedule" = Some h).
    { rewrite Hout; [apply lookup_singleton_eq|]. compute_done. }
    exists m'. split.
    { unfold IRotator.run, _check_actions, IRotator._reserved. simpl app in Heq.
      rewrite Heq. rewrite He; [reflexivity|by rewrite Hs]. }
    split; [done|].
    repeat split; try (apply Hne; discriminate);
      match goal with |- _ !! ?k = _ => destruct (Hin k) as [-> _]; [compute_done|reflexivity] end.
Qed.

End SetupRun.

(** ** The trampoline runner *)

Section StackFacts.
Context {coroutine : Type}.
Context (send : coroutine -> value coroutine -> outcome coroutine).
Context (throw : coroutine -> exn -> outcome coroutine).
Implicit Types m : gmap string (pyobj coroutine IStack.closure).
Implicit Types frames rest : list (value coroutine).

Lemma set_top_snoc frames (x y : value coroutine) :
  <[pred (length (frames ++ [x])) := y]> (frames ++ [x]) = frames ++ [y].
Proof.
  rewrite length_app. simpl. replace (pred (length frames + 1)) with (length frames + 0) by lia.
  by rewrite insert_app_r.
Qed.

Lemma length_snoc_gt frames (x : value coroutine) :
  (1 <? length (frames ++ [x]))%nat = negb (Nat.eqb (length frames) 0).
Proof.
  rewrite length_app. simpl. destruct (length frames) as [|n]; [reflexivity|].
  simpl. apply Nat.ltb_lt. lia.
Qed.

Lemma resume_top_snoc frames top v e :
  IStack.resume_top send throw (IStack.State (frames ++ [top]) v e)
  = match e with
    | Some x => if truthy x then obj_throw throw top x else obj_send send top v
    | None => obj_send send top v
    end.
Proof. unfold IStack.resume_top. simpl. by rewrite last_snoc. Qed.




(** [n] nested [stack_add]s above a non-empty frame list take [2 * n + 1]
    turns and leave [k] pending for the frame that was on top. *)
Lemma loop_nest (c w : nat -> coroutine) (k : value coroutine) m :
  m !! "stack_add" = Some (Closure IStack.StackAdd) ->
  send (c 0) VNone = Returned k ->
  (forall n, send (c (S n)) VNone
             = Yielded (Request "stack_add" [VCoro (c n)] []) (w n)) ->
  (forall n v, send (w n) v = Returned v) ->
  forall n frames fuel,
    frames <> [] ->
    IStack.loop send throw (2 * n + 1 + fuel) m
      (IStack.State (frames ++ [VCoro (c n)]) VNone None)
    = IStack.loop send throw fuel m (IStack.State frames k None).
Proof.
  intros Hm H0 HS Hw. induction n as [|n IH]; intros frames fuel Hne.
  - simpl. unfold IStack.iteration. rewrite resume_top_snoc. simpl. rewrite H0.
    unfold IStack.on_return. simpl. rewrite length_snoc_gt, removelast_last.
    by destruct frames.
  - replace (2 * S n + 1 + fuel) with (S (2 * n + 1 + S fuel)) by lia.
    cbn [IStack.loop]. unfold IStack.iteration at 1. rewrite resume_top_snoc. simpl obj_send.
    rewrite HS. cbn [IStack.stack]. rewrite set_top_snoc.
    unfold _action_getter. cbn [req_name req_args req_kwargs]. rewrite Hm.
    cbn [IStack.call IStack.stack_add].
    rewrite IH by (by destruct frames).
    cbn [IStack.loop]. unfold IStack.iteration. rewrite resume_top_snoc. simpl obj_send.
    rewrite Hw. unfold IStack.on_return. cbn [IStack.stack].
    rewrite length_snoc_gt, removelast_last.
    by destruct frames.
Qed.

(** C3.  A task that nests [N] [stack_add]s around a coroutine returning
    [k] at once runs to completion under [IStack.run], for every [N]: the
    loop takes [2 * N + 1] turns, each resuming the top frame only, and
    [run] returns [k]. *)
Theorem trampoline_depth_independence (c w : nat -> coroutine) (k : value coroutine) m :
  m !! "stack_add" = None ->
  send (c 0) VNone = Returned k ->
  (forall n, send (c (S n)) VNone
             = Yielded (Request "stack_add" [VCoro (c n)] []) (w n)) ->
  (forall n v, send (w n) v = Returned v) ->
  forall N fuel,
    snd (IStack.run send throw (2 * N + 1 + fuel) (VCoro (c N)) (Dict m)) = Some (Ok k).
Proof.
  intros Hm H0 HS Hw N fuel.
  unfold IStack.run, _check_actions, IStack._reserved. simpl _check_reserved. rewrite Hm.
  change (IStack.run_locals !! "stack_add")
    with (Some (@Closure coroutine IStack.closure IStack.StackAdd)).
  cbn [snd].
  set (m' := <["stack_add" := Closure IStack.StackAdd]> m).
  assert (Hm' : m' !! "stack_add" = Some (Closure IStack.StackAdd)) by apply lookup_insert_eq.
  destruct N as [|N].
  - simpl. unfold IStack.iteration, IStack.resume_top. simpl. by rewrite H0.
  - replace (2 * S N + 1 + fuel) with (S (2 * N + 1 + S fuel)) by lia.
    cbn [IStack.loop]. unfold IStack.iteration at 1, IStack.resume_top. simpl.
    rewrite HS. unfold _action_getter. cbn [req_name req_args req_kwargs]. rewrite Hm'.
    cbn [IStack.call IStack.stack_add].
    change (N + (N + 0) + 1 + S fuel) with (2 * N + 1 + S fuel).
    rewrite (loop_nest c w k m' Hm' H0 HS Hw N [VCoro (w N)] (S fuel)) by done.
    cbn [IStack.loop]. unfold IStack.iteration, IStack.resume_top. simpl.
    by rewrite Hw.
Qed.

End StackFacts.

(** ** The rotator: what every step keeps *)

Section RotatorFacts.
Import IRotator.
Context {coroutine : Type}.
Context (send : coroutine -> value coroutine -> outcome coroutine).
Context (throw : coroutine -> exn -> outcome coroutine).
Implicit Types st : state coroutine.
Implicit Types r : info coroutine.
Implicit Types actions : gmap string (pyobj coroutine closure).

Lemma upd_lookup i f st j :
  records (upd i f st) !! j
  = if decide (i = j) then f <$> records st !! j else records st !! j.
Proof. unfold upd. simpl. rewrite lookup_alter. by destruct (decide (i = j)) as [->|]. Qed.

Lemma upd_lookup_eq i f st : records (upd i f st) !! i = f <$> records st !! i.
Proof. rewrite upd_lookup. by rewrite decide_True. Qed.

Lemma upd_lookup_ne i f st j : i <> j -> records (upd i f st) !! j = records st !! j.
Proof. intros. rewrite upd_lookup. by rewrite decide_False. Qed.

Lemma wake_idemp r : wake (wake r) = wake r.
Proof. unfold wake. destruct (terminated r) eqn:E; simpl; by rewrite ?E. Qed.

Lemma wake_terminated r : terminated (wake r) = terminated r.
Proof. unfold wake. by destruct (terminated r) eqn:E. Qed.

Lemma wake_dead r : terminated r = true -> wake r = r.
Proof. unfold wake. by intros ->. Qed.

Lemma wake_all_fields l st :
  coro_info (wake_all l st) = coro_info st
  /\ id_ (wake_all l st) = id_ st
  /\ resumed (wake_all l st) = resumed st.
Proof. revert st. induction l as [|i l IH]; intros st; [done|]. exact (IH (upd i wake st)). Qed.

Lemma wake_all_lookup l st X :
  records (wake_all l st) !! X
  = if decide (X ∈ l) then wake <$> records st !! X else records st !! X.
Proof.
  revert st. induction l as [|i l IH]; intros st.
  - unfold wake_all. cbn [foldl].
    destruct (decide (X ∈ [])) as [H|]; [by apply elem_of_nil in H|done].
  - unfold wake_all in *. cbn [foldl]. rewrite IH, upd_lookup.
    destruct (decide (i = X)) as [->|Hne].
    + rewrite (decide_True (P := X ∈ X :: l)) by left.
      destruct (decide (X ∈ l)); [|done].
      destruct (records st !! X) as [r|]; [|done]. simpl. by rewrite wake_idemp.
    + destruct (decide (X ∈ l)) as [Hl|Hl].
      * rewrite decide_True; [done|]. by right.
      * rewrite decide_False; [done|]. intros H. apply elem_of_cons in H as [->|H]; done.
Qed.

Lemma terminate_lookup cid v e st X :
  records (terminate cid v e st) !! X
  = let r1 := if decide (cid = X) then set_terminated v e <$> records st !! X
              else records st !! X in
    if decide (X ∈ cinfo_waiting cid st) then wake <$> r1 else r1.
Proof.
  unfold terminate, del_coro_info. cbn [records].
  rewrite wake_all_lookup, upd_lookup.
  assert (Hw : cinfo_waiting cid (upd cid (set_terminated v e) st) = cinfo_waiting cid st).
  { unfold cinfo_waiting. rewrite upd_lookup_eq. by destruct (records st !! cid). }
  by rewrite Hw.
Qed.

Lemma terminate_fields cid v e st :
  coro_info (terminate cid v e st) = filter (fun i => i ≠ cid) (coro_info st)
  /\ id_ (terminate cid v e st) = id_ st
  /\ resumed (terminate cid v e st) = resumed st.
Proof.
  unfold terminate, del_coro_info. cbn [coro_info id_ resumed].
  destruct (wake_all_fields (cinfo_waiting cid (upd cid (set_terminated v e) st))
              (upd cid (set_terminated v e) st)) as (-> & -> & ->).
  done.
Qed.

Lemma StronglySorted_filter_lt (P : nat -> Prop) `{!forall x, Decision (P x)} (l : list nat) :
  StronglySorted lt l -> StronglySorted lt (filter P l).
Proof.
  induction 1 as [|a l Hs IH Hall]; [constructor|].
  rewrite filter_cons. destruct (decide (P a)); [|done].
  constructor; [done|].
  apply Forall_forall. intros x Hx.
  apply list_elem_of_filter in Hx as [_ Hx].
  rewrite Forall_forall in Hall. by apply Hall.
Qed.

Lemma follows_refl V st : follows V st st.
Proof.
  unfold follows. split; [lia|]. split; [exists []; split; [by rewrite app_nil_r|]|].
  { intros x Hx. by apply elem_of_nil in Hx. }
  split; [done|]. split; [lia|done].
Qed.

Lemma follows_trans V st1 st2 st3 :
  (forall x, x ∈ V -> x < id_ st1) ->
  follows V st1 st2 -> follows V st2 st3 -> follows V st1 st3.
Proof.
  intros HV (Ha1 & (l1 & Hl1 & Hb1) & Hc1 & Hd1 & He1) (Ha2 & (l2 & Hl2 & Hb2) & Hc2 & Hd2 & He2).
  unfold follows. split; [lia|]. split.
  { exists (l1 ++ l2). split; [by rewrite Hl2, Hl1, app_assoc|].
    intros x Hx. apply elem_of_app in Hx as [Hx|Hx]; auto. }
  split; [auto|]. split.
  { intros i Hi1 Hi3. destruct (decide (i < id_ st2)) as [Hlt|Hge].
    - apply Hc2; [by apply Hd1|]. intros Hin. specialize (HV i Hin). lia.
    - apply Hd2; lia. }
  intros X r HX Ht. apply He2; [|done]. by apply He1.
Qed.

Lemma follows_weaken V V' st st' :
  (forall x, x ∈ V -> x ∈ V') -> follows V st st' -> follows V' st st'.
Proof.
  intros HV (Ha & (l & Hl & Hb) & Hc & Hd & He).
  unfold follows. split; [done|]. split; [exists l; split; [done|auto]|].
  split; [|done]. intros i Hi Hn. apply Hc; [done|]. intros Hin. apply Hn. auto.
Qed.

Lemma log_good cid st : wf st -> wf (log cid st) /\ follows [cid] st (log cid st).
Proof.
  intros Hwf. split; [exact Hwf|].
  unfold follows, log. simpl. split; [lia|].
  split; [exists [cid]; split; [done|]|].
  { intros x Hx. done. }
  split; [done|]. split; [lia|done].
Qed.

(** Rewriting a record in a way that keeps a record that is not terminated
    so, and leaves a terminated one alone. *)
Lemma upd_good V i f st :
  wf st ->
  (forall r, records st !! i = Some r ->
     (terminated r = true /\ f r = r)
     \/ (terminated r = false /\ terminated (f r) = false)) ->
  wf (upd i f st) /\ follows V st (upd i f st).
Proof.
  intros (Hk & Hr & Hd & Hs) Hf.
  assert (Hlook : forall j r', records (upd i f st) !! j = Some r' ->
            exists r, records st !! j = Some r /\ terminated r' = terminated r
                      /\ (terminated r = true -> r' = r)).
  { intros j r'. rewrite upd_lookup. destruct (decide (i = j)) as [->|Hne].
    - destruct (records st !! j) as [r|] eqn:Hj; [|done]. simpl. intros [= <-].
      exists r. split; [done|]. destruct (Hf r eq_refl) as [[Ht Hfr]|[Ht Hfr]].
      + rewrite Hfr. done.
      + rewrite Ht, Hfr. split; [done|]. discriminate.
    - intros Hj. exists r'. done. }
  split.
  - unfold wf. cbn [coro_info id_]. split; [|split; [|split]].
    + intros j r' Hj. destruct (Hlook j r' Hj) as (r & Hjr & _). eauto.
    + intros j Hj. destruct (Hr j Hj) as (r & Hjr & Ht).
      rewrite upd_lookup. destruct (decide (i = j)) as [->|Hne]; [|eauto].
      rewrite Hjr. simpl. eexists. split; [done|].
      destruct (Hf r Hjr) as [[Ht' _]|[_ Hfr]]; [congruence|done].
    + intros j r' Hj Ht. destruct (Hlook j r' Hj) as (r & Hjr & Hter & Heq).
      rewrite Ht in Hter. rewrite (Heq (eq_sym Hter)). by eapply Hd.
    + done.
  - unfold follows. split; [simpl; lia|].
    split; [exists []; split; [simpl; by rewrite app_nil_r|]|].
    { intros x Hx. by apply elem_of_nil in Hx. }
    split; [done|]. split; [simpl; lia|].
    intros X r HX Ht. rewrite upd_lookup. destruct (decide (i = X)) as [->|Hne]; [|done].
    rewrite HX. simpl. destruct (Hf r HX) as [[_ Hfr]|[Ht' _]]; [by rewrite Hfr|congruence].
Qed.

Lemma upd_live i f st cid :
  (forall r, terminated (f r) = terminated r) -> live cid st -> live cid (upd i f st).
Proof.
  intros Hf (r & Hr & Ht). unfold live. rewrite upd_lookup.
  destruct (decide (i = cid)) as [->|Hne]; [|eauto].
  rewrite Hr. simpl. eexists. split; [done|]. by rewrite Hf.
Qed.

Lemma upd_live_good V i f st :
  wf st -> live i st -> (forall r, terminated (f r) = terminated r) ->
  wf (upd i f st) /\ follows V st (upd i f st).
Proof.
  intros Hwf (r & Hr & Ht) Hf. apply upd_good; [done|].
  intros r' Hr'. right. rewrite Hr in Hr'. injection Hr' as <-. by rewrite Hf.
Qed.

Lemma coro_adder_send_good V c st :
  wf st ->
  wf (snd (coro_adder_send c st)) /\ follows V st (snd (coro_adder_send c st)).
Proof.
  intros (Hk & Hr & Hd & Hs).
  assert (Hfresh : records st !! id_ st = None).
  { destruct (records st !! id_ st) as [r|] eqn:E; [|done]. apply Hk in E. lia. }
  unfold coro_adder_send. cbn [snd]. split.
  - unfold wf. cbn [coro_info id_ records]. split; [|split; [|split]].
    + intros j r. rewrite lookup_insert. destruct (decide (id_ st = j)) as [<-|Hne]; [lia|].
      intros Hj. apply Hk in Hj. lia.
    + intros j Hj. rewrite lookup_insert. destruct (decide (id_ st = j)) as [<-|Hne].
      * eexists. split; [done|]. done.
      * apply elem_of_app in Hj as [Hj|Hj]; [by apply Hr|].
        apply list_elem_of_singleton in Hj. congruence.
    + intros j r. rewrite lookup_insert. destruct (decide (id_ st = j)) as [<-|Hne].
      * intros [= <-]. done.
      * apply Hd.
    + apply StronglySorted_app_2; [|done|repeat constructor].
      intros x y Hx Hy. apply list_elem_of_singleton in Hy as ->.
      destruct (Hr x Hx) as (r & Hxr & _). eauto.
  - unfold follows. cbn [coro_info id_ records resumed]. split; [lia|].
    split; [exists []; split; [by rewrite app_nil_r|]|].
    { intros x Hx. by apply elem_of_nil in Hx. }
    split; [intros i Hi _; apply elem_of_app; by left|].
    split.
    { intros i H1 H2. assert (i = id_ st) as -> by lia. apply elem_of_app. right. left. }
    intros X r HX Ht. rewrite lookup_insert_ne; [done|]. intros <-. congruence.
Qed.

Lemma coro_adder_send_live c st cid :
  wf st -> live cid st -> live cid (snd (coro_adder_send c st)).
Proof.
  intros (Hk & _) (r & Hr & Ht). unfold live, coro_adder_send. cbn [snd records].
  rewrite lookup_insert_ne; [eauto|]. intros <-. apply Hk in Hr. lia.
Qed.

(** The [except] clause on a record that was not terminated. *)
Lemma terminate_good cid v e st :
  wf st -> live cid st ->
  wf (terminate cid v e st) /\ follows [cid] st (terminate cid v e st)
  /\ cinfo_terminated cid (terminate cid v e st) = true.
Proof.
  intros (Hk & Hr & Hd & Hs) (rc & Hrc & Htc).
  destruct (terminate_fields cid v e st) as (Hci & Hid & Hres).
  assert (Hlook : forall j r', records (terminate cid v e st) !! j = Some r' ->
            exists r, records st !! j = Some r
              /\ (j <> cid -> terminated r' = terminated r /\ (terminated r = true -> r' = r))
              /\ (j = cid -> terminated r' = true /\ active r' = false)).
  { intros j r'. rewrite terminate_lookup. cbv zeta.
    destruct (decide (cid = j)) as [<-|Hne].
    - rewrite Hrc. simpl.
      assert (Hw : wake (set_terminated v e rc) = set_terminated v e rc) by (by apply wake_dead).
      rewrite Hw. intros Hj. exists rc. split; [done|]. split; [done|]. intros _.
      destruct (decide (cid ∈ cinfo_waiting cid st)); injection Hj as <-; done.
    - intros Hj.
      destruct (records st !! j) as [r|] eqn:Hjr.
      2:{ by destruct (decide (j ∈ cinfo_waiting cid st)). }
      exists r. split; [done|]. split; [|congruence]. intros _.
      destruct (decide (j ∈ cinfo_waiting cid st)); simpl in Hj; injection Hj as <-.
      + split; [apply wake_terminated|apply wake_dead].
      + done. }
  split; [|split].
  - unfold wf. rewrite Hci, Hid. split; [|split; [|split]].
    + intros j r' Hj. destruct (Hlook j r' Hj) as (r & Hjr & _). eauto.
    + intros j Hj. apply list_elem_of_filter in Hj as [Hne Hj].
      destruct (Hr j Hj) as (r & Hjr & Ht).
      rewrite terminate_lookup. cbv zeta.
      rewrite (decide_False (P := cid = j)) by congruence. rewrite Hjr.
      destruct (decide (j ∈ cinfo_waiting cid st)); simpl; eexists; (split; [done|]);
        [by rewrite wake_terminated|done].
    + intros j r' Hj Ht. destruct (Hlook j r' Hj) as (r & Hjr & Hne & Heq).
      destruct (decide (j = cid)) as [->|Hjc]; [by apply Heq|].
      destruct (Hne Hjc) as [Hter Hsame]. rewrite Ht in Hter.
      rewrite (Hsame (eq_sym Hter)). by eapply Hd.
    + by apply StronglySorted_filter_lt.
  - unfold follows. rewrite Hci, Hid, Hres. split; [lia|].
    split; [exists []; split; [by rewrite app_nil_r|]|].
    { intros x Hx. by apply elem_of_nil in Hx. }
    split.
    { intros i Hi Hn. apply list_elem_of_filter. split; [|done].
      intros ->. apply Hn. left. }
    split; [lia|].
    intros X r HX Ht. rewrite terminate_lookup. cbv zeta.
    rewrite (decide_False (P := cid = X)) by (intros <-; congruence). rewrite HX.
    destruct (decide (X ∈ cinfo_waiting cid st)); [|done]. simpl. by rewrite wake_dead.
  - unfold cinfo_terminated. rewrite terminate_lookup. cbv zeta.
    rewrite (decide_True (P := cid = cid)) by done. rewrite Hrc. simpl.
    destruct (decide (cid ∈ cinfo_waiting cid st)); done.
Qed.

Lemma live_lt cid st : wf st -> live cid st -> cid < id_ st.
Proof. intros (Hk & _) (r & Hr & _). eauto. Qed.

Lemma active_live cid st : wf st -> cinfo_active cid st = true -> live cid st.
Proof.
  intros (_ & _ & Hd & _). unfold cinfo_active, live.
  destruct (records st !! cid) as [r|] eqn:Hr; [|done].
  intros Ha. exists r. split; [done|].
  destruct (terminated r) eqn:Ht; [|done]. rewrite (Hd _ _ Hr Ht) in Ha. done.
Qed.

Lemma follows_step cid st1 st2 st3 :
  cid < id_ st1 -> follows [cid] st1 st2 -> follows [cid] st2 st3 -> follows [cid] st1 st3.
Proof.
  intros Hlt. apply follows_trans. intros x Hx. apply list_elem_of_singleton in Hx. by subst.
Qed.

(** The closures keep the state well formed and the caller alive. *)
Lemma call_good cid b args kwargs a st res a' st' :
  wf st -> live cid st ->
  call cid b args kwargs (a, st) = (res, (a', st')) ->
  wf st' /\ follows [cid] st st' /\ live cid st'.
Proof.
  intros Hwf Hlive Hcall.
  assert (Hsame : st' = st -> wf st' /\ follows [cid] st st' /\ live cid st').
  { intros ->. split; [done|]. split; [apply follows_refl|done]. }
  destruct b; cbn [call fst snd] in Hcall.
  - unfold new_coro, coro_adder_send in Hcall.
    repeat case_match; simplify_eq; try (by apply Hsame).
    destruct (coro_adder_send_good [cid] v st Hwf) as [H1 H2].
    split; [exact H1|]. split; [exact H2|]. by apply (coro_adder_send_live v st cid).
  - unfold wait_coro in Hcall.
    repeat case_match; simplify_eq; try (by apply Hsame).
    match goal with
    | Hi : records st !! ?i = Some ?r, Ht : terminated ?r = false |- _ =>
        assert (Hli : live i st) by (by exists r);
        destruct (upd_live_good [cid] i (add_waiter cid) st Hwf Hli) as [Hwf1 Hf1]; [done|];
        assert (Hl1 : live cid (upd i (add_waiter cid) st)) by (by apply upd_live);
        destruct (upd_live_good [cid] cid (set_active false) _ Hwf1 Hl1) as [Hwf2 Hf2];
          [done|]
    end.
    split; [exact Hwf2|]. split.
    + eapply follows_step; [by apply live_lt|exact Hf1|exact Hf2].
    + by apply upd_live.
  - destruct (no_arguments args kwargs); simplify_eq; by apply Hsame.
  - destruct (no_arguments args kwargs); simplify_eq; by apply Hsame.
  - destruct (no_arguments args kwargs); simplify_eq; by apply Hsame.
  - destruct (no_arguments args kwargs); simplify_eq; by apply Hsame.
Qed.

Lemma action_good cid actions req a st res a' st' :
  wf st -> live cid st ->
  _action_getter (call cid) actions req (a, st) = (res, (a', st')) ->
  wf st' /\ follows [cid] st st' /\ live cid st'.
Proof.
  intros Hwf Hlive. unfold _action_getter.
  destruct (actions !! req_name req) as [[b|h|]|].
  - by apply call_good.
  - intros [= _ _ <-]. split; [done|]. split; [apply follows_refl|done].
  - intros [= _ _ <-]. split; [done|]. split; [apply follows_refl|done].
  - intros [= _ _ <-]. split; [done|]. split; [apply follows_refl|done].
Qed.

(** One turn of the inner loop on an active record. *)
Lemma turn_good actions cid a st :
  wf st -> cinfo_active cid st = true ->
  match turn send throw actions cid a st with
  | inl (_, st') => wf st' /\ follows [cid] st st'
  | inr (st', _) => wf st' /\ follows [cid] st st' /\ cinfo_terminated cid st' = true
  end.
Proof.
  intros Hwf Hact. pose proof (active_live cid st Hwf Hact) as Hlive.
  pose proof (live_lt cid st Hwf Hlive) as Hlt.
  unfold turn. destruct Hlive as (rc & Hrc & Htc). rewrite Hrc.
  assert (Hlive : live cid st) by (by exists rc).
  destruct (log_good cid st Hwf) as [Hwf0 Hf0].
  assert (Hlive0 : live cid (log cid st)) by exact Hlive.
  assert (Hterm : forall v e,
            wf (terminate cid v e (log cid st))
            /\ follows [cid] st (terminate cid v e (log cid st))
            /\ cinfo_terminated cid (terminate cid v e (log cid st)) = true).
  { intros v e. destruct (terminate_good cid v e _ Hwf0 Hlive0) as (H1 & H2 & H3).
    split; [done|]. split; [|done]. eapply follows_step; eauto. }
  destruct (resume send throw rc) as [req c'|v|e]; [|apply Hterm|apply Hterm].
  destruct (upd_live_good [cid] cid (set_coro (VCoro c')) _ Hwf0 Hlive0) as [Hwf1 Hf1]; [done|].
  assert (Hlive1 : live cid (upd cid (set_coro (VCoro c')) (log cid st))) by (by apply upd_live).
  assert (Hf01 : follows [cid] st (upd cid (set_coro (VCoro c')) (log cid st))).
  { eapply follows_step; eauto. }
  destruct (_action_getter (call cid) actions req
              (a, upd cid (set_coro (VCoro c')) (log cid st))) as [res [a' st2]] eqn:Hact2.
  destruct (action_good _ _ _ _ _ _ _ _ Hwf1 Hlive1 Hact2) as (Hwf2 & Hf2 & Hlive2).
  assert (Hf02 : follows [cid] st st2) by (eapply follows_step; eauto).
  assert (Hpend : forall v e, wf (upd cid (set_pending v e) st2)
                              /\ follows [cid] st (upd cid (set_pending v e) st2)).
  { intros v e.
    destruct (upd_live_good [cid] cid (set_pending v e) _ Hwf2 Hlive2) as [H1 H2]; [done|].
    split; [done|]. eapply follows_step; eauto. }
  destruct res as [v|e]; [apply Hpend|].
  destruct (is_Exception e); [apply Hpend|].
  destruct (terminate_good cid VNone (Some e) _ Hwf2 Hlive2) as (H1 & H2 & H3).
  split; [done|]. split; [|done]. eapply follows_step; eauto.
Qed.

Lemma terminated_inactive cid st :
  wf st -> cinfo_terminated cid st = true -> cinfo_active cid st = false.
Proof.
  intros (_ & _ & Hd & _). unfold cinfo_terminated, cinfo_active.
  destruct (records st !! cid) as [r|] eqn:Hr; [|done]. by apply (Hd cid).
Qed.

(** The inner loop: when it is left normally its guard is false. *)
Lemma drive_good actions cid fuel a st a' st' s :
  wf st -> cid < id_ st ->
  drive send throw fuel actions cid a st = (a', st', s) ->
  wf st' /\ follows [cid] st st'
  /\ (s = Normal -> a' && cinfo_active cid st' = false).
Proof.
  revert a st. induction fuel as [|fuel IH]; intros a st Hwf Hlt Hdrive.
  - simpl in Hdrive. destruct (a && cinfo_active cid st) eqn:Hg;
      injection Hdrive as <- <- <-; (split; [done|]); (split; [apply follows_refl|]); done.
  - simpl in Hdrive. destruct (a && cinfo_active cid st) eqn:Hg.
    2:{ injection Hdrive as <- <- <-. split; [done|]. split; [apply follows_refl|done]. }
    apply andb_true_iff in Hg as [-> Hact].
    pose proof (turn_good actions cid true st Hwf Hact) as Hturn.
    destruct (turn send throw actions cid true st) as [[a1 st1]|[st1 s1]].
    + destruct Hturn as [Hwf1 Hf1].
      assert (Hlt1 : cid < id_ st1) by (destruct Hf1 as [? _]; lia).
      destruct (IH a1 st1 Hwf1 Hlt1 Hdrive) as (Hwf' & Hf' & Hg').
      split; [done|]. split; [|done]. eapply follows_step; eauto.
    + destruct Hturn as (Hwf1 & Hf1 & Ht1). injection Hdrive as <- <- <-.
      split; [done|]. split; [done|]. intros _. simpl. by apply terminated_inactive.
Qed.

Lemma visit_good actions cid fuel st a' st' s :
  wf st -> cid < id_ st ->
  visit send throw fuel actions cid st = (a', st', s) ->
  wf st' /\ follows [cid] st st'
  /\ (s = Normal -> a' && cinfo_active cid st' = false).
Proof. unfold visit. apply drive_good. Qed.

(** What was resumed by turns of one record is that record, over and over. *)
Lemma follows_replicate cid st st' :
  follows [cid] st st' ->
  exists n, resumed st' = resumed st ++ replicate n cid.
Proof.
  intros (_ & (l & Hl & Hin) & _). exists (length l). rewrite Hl. f_equal.
  clear Hl. induction l as [|x l IH]; [done|]. simpl.
  assert (x = cid) as ->.
  { assert (Hx : x ∈ [cid]) by (apply Hin; left). by apply list_elem_of_singleton in Hx. }
  f_equal. apply IH. intros y Hy. apply Hin. by right.
Qed.

(** A sweep over a snapshot: the records are resumed in the order of the
    snapshot, each a number of times in a row. *)
Lemma sweep_over_good actions fuel snapshot st st' s :
  wf st -> (forall x, x ∈ snapshot -> x < id_ st) ->
  sweep_over send throw fuel actions snapshot st = (st', s) ->
  wf st' /\ follows snapshot st st'
  /\ exists counts, length counts = length snapshot
       /\ resumed st' = resumed st ++ concat (zip_with replicate counts snapshot).
Proof.
  revert st. induction snapshot as [|cid rest IH]; intros st Hwf Hlt Hsw.
  - simpl in Hsw. injection Hsw as <- <-. split; [done|]. split; [apply follows_refl|].
    exists []. split; [done|]. simpl. by rewrite app_nil_r.
  - simpl in Hsw.
    destruct (visit send throw fuel actions cid st) as [[a1 st1] s1] eqn:Hvisit.
    assert (Hc : cid < id_ st) by (apply Hlt; left).
    destruct (visit_good _ _ _ _ _ _ _ Hwf Hc Hvisit) as (Hwf1 & Hf1 & _).
    destruct (follows_replicate _ _ _ Hf1) as [n Hn].
    assert (Hf1' : follows (cid :: rest) st st1).
    { eapply follows_weaken; [|exact Hf1]. intros x Hx.
      apply list_elem_of_singleton in Hx as ->. left. }
    assert (Hstop : (st', s) = (st1, s1) ->
              wf st' /\ follows (cid :: rest) st st'
              /\ exists counts, length counts = length (cid :: rest)
                   /\ resumed st' = resumed st ++ concat (zip_with replicate counts (cid :: rest))).
    { intros [= -> ->]. split; [done|]. split; [done|].
      exists (n :: replicate (length rest) 0). split; [simpl; by rewrite length_replicate|].
      simpl. rewrite Hn. f_equal.
      assert (Hz : concat (zip_with replicate (replicate (length rest) 0) rest) = []).
      { clear. induction rest as [|x rest IH]; [done|]. simpl. exact IH. }
      by rewrite Hz, app_nil_r. }
    destruct s1; [|by apply Hstop|by apply Hstop].
    destruct (IH st1 Hwf1) as (Hwf' & Hf' & counts & Hlen & Hres); [|done|].
    { intros x Hx. destruct Hf1 as [Hle _]. specialize (Hlt x). 
      assert (x < id_ st) by (apply Hlt; by right). lia. }
    split; [done|]. split.
    + eapply follows_trans; [exact Hlt|exact Hf1'|].
      eapply follows_weaken; [|exact Hf']. intros x Hx. by right.
    + exists (n :: counts). split; [simpl; by rewrite Hlen|].
      simpl. by rewrite Hres, Hn, app_assoc.
Qed.

Lemma elem_of_rev (x : nat) (l : list nat) : x ∈ rev l <-> x ∈ l.
Proof. rewrite !list_elem_of_In. symmetry. apply in_rev. Qed.

Lemma registry_lt st x : wf st -> x ∈ coro_info st -> x < id_ st.
Proof. intros (Hk & Hr & _) Hx. destruct (Hr x Hx) as (r & Hxr & _). eauto. Qed.

Lemma sweep_good actions fuel st st' s :
  wf st ->
  sweep send throw fuel actions st = (st', s) ->
  wf st' /\ follows (coro_info st) st st'
  /\ exists counts, length counts = length (coro_info st)
       /\ resumed st' = resumed st ++ concat (zip_with replicate counts (rev (coro_info st))).
Proof.
  intros Hwf Hsw. unfold sweep in Hsw.
  assert (Hlt : forall x, x ∈ rev (coro_info st) -> x < id_ st).
  { intros x Hx. apply registry_lt; [done|]. exact (proj1 (elem_of_rev _ _) Hx). }
  destruct (sweep_over_good _ _ _ _ _ _ Hwf Hlt Hsw) as (Hwf' & Hf' & counts & Hlen & Hres).
  split; [done|]. split.
  - eapply follows_weaken; [|exact Hf']. intros x Hx. exact (proj1 (elem_of_rev _ _) Hx).
  - exists counts. split; [by rewrite Hlen, length_rev|done].
Qed.

Lemma start_wf (c : value coroutine) : wf (start c).
Proof.
  unfold start. apply coro_adder_send_good with (V := []).
  unfold wf. simpl. split; [intros i r; by rewrite lookup_empty|].
  split; [intros i Hi; by apply elem_of_nil in Hi|].
  split; [intros i r; by rewrite lookup_empty|constructor].
Qed.

(** The record of an inactive task is not resumed. *)
Lemma drive_inactive actions cid fuel a st :
  cinfo_active cid st = false ->
  drive send throw fuel actions cid a st = (a, st, Normal).
Proof. intros H. destruct fuel; simpl; by rewrite H, andb_false_r. Qed.

(** A turn in which the task requests a closure that returns. *)
Lemma turn_closure_ok actions cid a st rc name args kwargs c' b v a' st2 :
  records st !! cid = Some rc ->
  resume send throw rc = Yielded (Request name args kwargs) c' ->
  actions !! name = Some (Closure b) ->
  call cid b args kwargs (a, upd cid (set_coro (VCoro c')) (log cid st)) = (Ok v, (a', st2)) ->
  turn send throw actions cid a st = inl (a', upd cid (set_pending v None) st2).
Proof.
  intros Hrc Hres Hb Hcall. unfold turn. rewrite Hrc, Hres.
  unfold _action_getter. cbn [req_name req_args req_kwargs]. by rewrite Hb, Hcall.
Qed.

Lemma cinfo_active_upd_ne cid i f st :
  i <> cid -> cinfo_active cid (upd i f st) = cinfo_active cid st.
Proof. intros H. unfold cinfo_active. by rewrite upd_lookup_ne. Qed.

Lemma cinfo_active_upd_eq cid f st :
  (forall r, active (f r) = active r) ->
  cinfo_active cid (upd cid f st) = cinfo_active cid st.
Proof.
  intros H. unfold cinfo_active. rewrite upd_lookup_eq.
  destruct (records st !! cid); [apply H|done].
Qed.

Lemma cinfo_active_upd cid i f st :
  (forall r, active (f r) = active r) ->
  cinfo_active cid (upd i f st) = cinfo_active cid st.
Proof.
  intros H. destruct (decide (i = cid)) as [->|Hne];
    [by apply cinfo_active_upd_eq|by apply cinfo_active_upd_ne].
Qed.

Lemma cinfo_waiting_upd cid i f st :
  (forall r, waiting_coros (f r) = waiting_coros r) ->
  cinfo_waiting cid (upd i f st) = cinfo_waiting cid st.
Proof.
  intros H. unfold cinfo_waiting. rewrite upd_lookup.
  destruct (decide (i = cid)) as [->|Hne]; [|done].
  destruct (records st !! cid); [apply H|done].
Qed.

(** C5.  [wait_coro(info)] called for the record [cid]: when [info] is not
    terminated, [cid] is appended to its [waiting_coros] and the [active]
    of [cid] is set to false, no other record being touched, and the inner
    loop of [cid] is left; a record whose [active] is false is not resumed
    by a visit.  When [info] is terminated the call changes nothing, and
    the inner loop goes on to resume the caller with [None]. *)
Theorem wait_coro_semantics :
  (forall cid i st rt a,
     records st !! i = Some rt -> terminated rt = false ->
     call cid WaitCoro [VInfo i] [] (a, st)
       = (Ok VNone, (a, _suspend cid (upd i (add_waiter cid) st)))
     /\ cinfo_waiting i (_suspend cid (upd i (add_waiter cid) st)) = waiting_coros rt ++ [cid]
     /\ (is_Some (records st !! cid) ->
         cinfo_active cid (_suspend cid (upd i (add_waiter cid) st)) = false)
     /\ (forall j, j <> i -> j <> cid ->
           records (_suspend cid (upd i (add_waiter cid) st)) !! j = records st !! j))
  /\ (forall cid i st rt a,
        records st !! i = Some rt -> terminated rt = true ->
        call cid WaitCoro [VInfo i] [] (a, st) = (Ok VNone, (a, st)))
  /\ (forall actions cid i st rc rt c' fuel,
        actions !! "wait_coro" = Some (Closure WaitCoro) ->
        records st !! cid = Some rc -> active rc = true ->
        records st !! i = Some rt ->
        resume send throw rc = Yielded (Request "wait_coro" [VInfo i] []) c' ->
        let st1 := upd cid (set_coro (VCoro c')) (log cid st) in
        (terminated rt = false ->
           let st2 := upd cid (set_pending VNone None)
                        (_suspend cid (upd i (add_waiter cid) st1)) in
           drive send throw (S fuel) actions cid true st = (true, st2, Normal)
           /\ cinfo_active cid st2 = false
           /\ cinfo_waiting i st2 = waiting_coros rt ++ [cid])
        /\ (terminated rt = true ->
           let st2 := upd cid (set_pending VNone None) st1 in
           drive send throw (S fuel) actions cid true st
             = drive send throw fuel actions cid true st2
           /\ cinfo_active cid st2 = true
           /\ exists r2, records st2 !! cid = Some r2
                /\ resume send throw r2 = obj_send send (VCoro c') VNone))
  /\ (forall actions cid st fuel,
        cinfo_active cid st = false ->
        visit send throw fuel actions cid st = (false, st, Normal)).
Proof.
  split; [|split; [|split]].
  - intros cid i st rt a Hi Ht. split; [|split; [|split]].
    + cbn [call fst snd]. unfold wait_coro. by rewrite Hi, Ht.
    + unfold _suspend. rewrite cinfo_waiting_upd by done.
      unfold cinfo_waiting. by rewrite upd_lookup_eq, Hi.
    + intros [rc Hrc]. unfold _suspend, cinfo_active. rewrite upd_lookup_eq.
      rewrite upd_lookup. destruct (decide (i = cid)); by rewrite Hrc.
    + intros j Hji Hjc. unfold _suspend. by rewrite !upd_lookup_ne.
  - intros cid i st rt a Hi Ht. cbn [call fst snd]. unfold wait_coro. by rewrite Hi, Ht.
  - intros actions cid i st rc rt c' fuel Hw Hrc Hact Hi Hres st1.
    assert (Hg : true && cinfo_active cid st = true).
    { unfold cinfo_active. by rewrite Hrc, Hact. }
    assert (Hi1 : exists rt1, records st1 !! i = Some rt1
                    /\ terminated rt1 = terminated rt /\ waiting_coros rt1 = waiting_coros rt).
    { unfold st1. rewrite upd_lookup. destruct (decide (cid = i)) as [->|Hne].
      - cbn [log records]. rewrite Hi. eexists. by split.
      - exists rt. by split. }
    destruct Hi1 as (rt1 & Hi1 & Hter1 & Hwait1).
    split.
    + intros Ht st2.
      assert (Hturn : turn send throw actions cid true st = inl (true, st2)).
      { eapply turn_closure_ok; [exact Hrc|exact Hres|exact Hw|].
        cbn [call fst snd]. unfold wait_coro. fold st1. rewrite Hi1, Hter1, Ht. done. }
      assert (Hinact : cinfo_active cid st2 = false).
      { unfold st2. rewrite cinfo_active_upd_eq by done.
        unfold _suspend, cinfo_active. rewrite upd_lookup_eq.
        destruct (records (upd i (add_waiter cid) st1) !! cid); done. }
      split; [|split; [done|]].
      * cbn [drive]. rewrite Hg, Hturn. by apply drive_inactive.
      * unfold st2, _suspend. rewrite !cinfo_waiting_upd by done.
        unfold cinfo_waiting. rewrite upd_lookup_eq, Hi1. simpl. by rewrite Hwait1.
    + intros Ht st2.
      assert (Hturn : turn send throw actions cid true st = inl (true, st2)).
      { eapply turn_closure_ok; [exact Hrc|exact Hres|exact Hw|].
        cbn [call fst snd]. unfold wait_coro. fold st1. rewrite Hi1, Hter1, Ht. done. }
      split; [|split].
      * cbn [drive]. by rewrite Hg, Hturn.
      * unfold st2, st1. rewrite !cinfo_active_upd_eq by done.
        unfold cinfo_active. cbn [log records]. by rewrite Hrc.
      * unfold st2, st1. rewrite !upd_lookup_eq. cbn [log records]. rewrite Hrc.
        eexists. split; [reflexivity|]. reflexivity.
  - intros actions cid st fuel H. unfold visit. rewrite H. by apply drive_inactive.
Qed.

(** C8, as the code has it.  [schedule()] leaves every record as it is, the
    [active] of the caller included, and clears the local [active] of the
    sweep: the inner loop of the caller is left after this request, and
    its record, still active, is resumed with [None] when it is next
    visited. *)
Theorem schedule_semantics :
  (forall cid a st, call cid Schedule [] [] (a, st) = (Ok VNone, (false, st)))
  /\ (forall actions cid st rc c' fuel,
        actions !! "schedule" = Some (Closure Schedule) ->
        records st !! cid = Some rc -> active rc = true ->
        resume send throw rc = Yielded (Request "schedule" [] []) c' ->
        let st' := upd cid (set_pending VNone None)
                     (upd cid (set_coro (VCoro c')) (log cid st)) in
        drive send throw (S fuel) actions cid true st = (false, st', Normal)
        /\ records st' !! cid
           = Some (Info VNone None (VCoro c') (active rc) (terminated rc) (waiting_coros rc))
        /\ cinfo_active cid st' = true
        /\ (forall j, j <> cid -> records st' !! j = records st !! j)
        /\ coro_info st' = coro_info st
        /\ visit send throw (S fuel) actions cid st'
           = drive send throw (S fuel) actions cid true st').
Proof.
  split; [done|].
  intros actions cid st rc c' fuel Hs Hrc Hact Hres st'.
  assert (Hg : true && cinfo_active cid st = true).
  { unfold cinfo_active. by rewrite Hrc, Hact. }
  assert (Hturn : turn send throw actions cid true st = inl (false, st')).
  { eapply turn_closure_ok; [exact Hrc|exact Hres|exact Hs|done]. }
  assert (Hrec : records st' !! cid
            = Some (Info VNone None (VCoro c') (active rc) (terminated rc) (waiting_coros rc))).
  { unfold st'. rewrite !upd_lookup_eq. cbn [log records]. by rewrite Hrc. }
  assert (Ha : cinfo_active cid st' = true).
  { unfold cinfo_active. by rewrite Hrec. }
  split; [|split; [done|split; [done|split; [|split; [done|]]]]].
  - cbn [drive]. rewrite Hg, Hturn. by destruct fuel.
  - intros j Hj. unfold st'. by rewrite !upd_lookup_ne.
  - unfold visit. by rewrite Ha.
Qed.

Lemma terminate_frozen cid v e st X r :
  records st !! X = Some r -> terminated r = true -> X <> cid ->
  records (terminate cid v e st) !! X = Some r.
Proof.
  intros HX Ht Hne. rewrite terminate_lookup. cbv zeta.
  rewrite (decide_False (P := cid = X)) by congruence. rewrite HX.
  destruct (decide (X ∈ cinfo_waiting cid st)); [|done]. simpl. by rewrite wake_dead.
Qed.

Lemma wf_dead st X r :
  wf st -> records st !! X = Some r -> terminated r = true ->
  active r = false /\ X ∉ coro_info st.
Proof.
  intros (_ & Hr & Hd & _) HX Ht. split; [by apply (Hd X)|].
  intros Hin. destruct (Hr X Hin) as (r' & HX' & Ht'). congruence.
Qed.

(** C9.  The states of a run are well formed, and in a well-formed state a
    terminated record is inactive and out of the registry.  A sweep leaves
    a terminated record exactly as it was, so this holds after any number
    of sweeps; waking skips a terminated record, and so does the
    termination of another record that has it in [waiting_coros]. *)
Theorem terminated_is_final :
  (forall c : value coroutine, wf (start c))
  /\ (forall st X r,
        wf st -> records st !! X = Some r -> terminated r = true ->
        active r = false /\ X ∉ coro_info st)
  /\ (forall actions fuel st st' s,
        wf st -> sweep send throw fuel actions st = (st', s) ->
        wf st'
        /\ forall X r, records st !! X = Some r -> terminated r = true ->
                       records st' !! X = Some r)
  /\ (forall actions fuel st n X r,
        wf st -> records st !! X = Some r -> terminated r = true ->
        let st' := Nat.iter n (fun s => fst (sweep send throw fuel actions s)) st in
        wf st' /\ records st' !! X = Some r /\ active r = false /\ X ∉ coro_info st')
  /\ (forall r, terminated r = true -> wake r = r)
  /\ (forall cid v e st X r,
        records st !! X = Some r -> terminated r = true -> X <> cid ->
        records (terminate cid v e st) !! X = Some r).
Proof.
  assert (Hsweep : forall actions fuel st st' s,
            wf st -> sweep send throw fuel actions st = (st', s) ->
            wf st'
            /\ forall X r, records st !! X = Some r -> terminated r = true ->
                           records st' !! X = Some r).
  { intros actions fuel st st' s Hwf Hsw.
    destruct (sweep_good _ _ _ _ _ Hwf Hsw) as (Hwf' & (_ & _ & _ & _ & Hfr) & _).
    by split. }
  split; [apply start_wf|]. split; [apply wf_dead|]. split; [exact Hsweep|].
  split; [|split; [apply wake_dead|apply terminate_frozen]].
  intros actions fuel st n X r Hwf HX Ht.
  induction n as [|n IH]; cbn zeta in *.
  - simpl. destruct (wf_dead st X r Hwf HX Ht). done.
  - simpl. destruct IH as (Hwf' & HX' & _).
    destruct (sweep send throw fuel actions
                (Nat.iter n (fun s => fst (sweep send throw fuel actions s)) st))
      as [st2 s2] eqn:Hsw.
    destruct (Hsweep _ _ _ _ _ Hwf' Hsw) as [Hwf2 Hfr]. cbn [fst].
    specialize (Hfr X r HX' Ht).
    destruct (wf_dead st2 X r Hwf2 Hfr Ht). done.
Qed.

(** In a registry kept in increasing order of ids, the reversed snapshot
    lists a later id before an earlier one. *)
Lemma sorted_rev_order (l : list nat) i j :
  StronglySorted lt l -> i ∈ l -> j ∈ l -> i < j ->
  exists l1 l2 l3, rev l = l1 ++ j :: l2 ++ i :: l3.
Proof.
  intros Hs Hi Hj Hlt.
  apply list_elem_of_split in Hi as (a & b & ->).
  apply elem_of_app in Hj as [Hj|Hj].
  { assert (j < i); [|lia].
    eapply (StronglySorted_app_1_elem_of lt a (i :: b)); [done|done|left]. }
  apply elem_of_cons in Hj as [->|Hj]; [lia|].
  apply list_elem_of_split in Hj as (b1 & b2 & ->).
  exists (rev b2), (rev b1), (rev a).
  rewrite rev_app_distr. simpl. rewrite rev_app_distr. simpl.
  by rewrite <- !app_assoc.
Qed.

(** *** What resuming one record leaves of the others *)

Local Abbreviation spares a st st' :=
  (forall r, records st !! a = Some r ->
             exists r', records st' !! a = Some r' /\ undisturbed r r').

Local Abbreviation keys st := (forall i r, records st !! i = Some r -> i < id_ st).

Lemma undisturbed_refl r : undisturbed r r.
Proof. unfold undisturbed. split; [done|]. split; [done|]. split; [done|]. by left. Qed.

Lemma undisturbed_trans r1 r2 r3 :
  undisturbed r1 r2 -> undisturbed r2 r3 -> undisturbed r1 r3.
Proof.
  intros (Hc1 & Ht1 & Ha1 & Hp1) (Hc2 & Ht2 & Ha2 & Hp2).
  split; [congruence|]. split; [congruence|]. split; [auto|].
  destruct Hp2 as [[Hv2 He2]|[Hv2 He2]]; [|by right].
  destruct Hp1 as [[Hv1 He1]|[Hv1 He1]]; [left|right]; split; congruence.
Qed.

Lemma undisturbed_wake r : undisturbed r (wake r).
Proof.
  unfold wake. destruct (terminated r) eqn:Ht; [apply undisturbed_refl|].
  split; [done|]. split; [done|]. split; [done|]. by right.
Qed.

Lemma undisturbed_add_waiter w r : undisturbed r (add_waiter w r).
Proof. split; [done|]. split; [done|]. split; [done|]. by left. Qed.

Lemma spares_refl a st : spares a st st.
Proof. intros r Hr. exists r. split; [done|apply undisturbed_refl]. Qed.

Lemma spares_trans a st1 st2 st3 : spares a st1 st2 -> spares a st2 st3 -> spares a st1 st3.
Proof.
  intros H1 H2 r Hr. destruct (H1 r Hr) as (r2 & Hr2 & Hu2).
  destruct (H2 r2 Hr2) as (r3 & Hr3 & Hu3). exists r3. split; [done|].
  by eapply undisturbed_trans.
Qed.

Lemma upd_spares a i f st :
  (i <> a \/ forall r, undisturbed r (f r)) -> spares a st (upd i f st).
Proof.
  intros H r Hr. rewrite upd_lookup. destruct (decide (i = a)) as [->|Hne].
  - rewrite Hr. exists (f r). split; [done|]. destruct H as [H|H]; [done|apply H].
  - exists r. split; [done|apply undisturbed_refl].
Qed.

Lemma upd_keys i f st : keys st -> keys (upd i f st).
Proof.
  intros Hk j r. rewrite upd_lookup. destruct (decide (i = j)) as [->|]; [|apply Hk].
  destruct (records st !! j) as [r0|] eqn:Hr0; [|done]. intros _. by apply (Hk j r0).
Qed.

Lemma coro_adder_send_spares a c st : keys st -> spares a st (snd (coro_adder_send c st)).
Proof.
  intros Hk r Hr. exists r. split; [|apply undisturbed_refl].
  cbn [coro_adder_send snd records]. rewrite lookup_insert_ne; [done|].
  intros <-. specialize (Hk _ _ Hr). lia.
Qed.

Lemma terminate_spares a cid v e st : a <> cid -> spares a st (terminate cid v e st).
Proof.
  intros Hne r Hr. rewrite terminate_lookup. cbv zeta.
  rewrite (decide_False (P := cid = a)) by congruence. rewrite Hr.
  destruct (decide (a ∈ cinfo_waiting cid st)); simpl; eexists; (split; [done|]);
    [apply undisturbed_wake|apply undisturbed_refl].
Qed.

Lemma call_spares a cid b args kwargs fl st res fl' st' :
  keys st -> a <> cid ->
  call cid b args kwargs (fl, st) = (res, (fl', st')) ->
  spares a st st'.
Proof.
  intros Hk Hne Hcall. destruct b; cbn [call fst snd] in Hcall.
  - unfold new_coro, coro_adder_send in Hcall.
    repeat case_match; simplify_eq; try apply spares_refl.
    match goal with |- context [new_info ?c] => exact (coro_adder_send_spares a c st Hk) end.
  - unfold wait_coro in Hcall.
    repeat case_match; simplify_eq; try apply spares_refl.
    eapply spares_trans.
    + apply upd_spares. right. intros r. apply undisturbed_add_waiter.
    + apply upd_spares. left. congruence.
  - destruct (no_arguments args kwargs); simplify_eq; apply spares_refl.
  - destruct (no_arguments args kwargs); simplify_eq; apply spares_refl.
  - destruct (no_arguments args kwargs); simplify_eq; apply spares_refl.
  - destruct (no_arguments args kwargs); simplify_eq; apply spares_refl.
Qed.

Lemma action_spares a cid actions req fl st res fl' st' :
  keys st -> a <> cid ->
  _action_getter (call cid) actions req (fl, st) = (res, (fl', st')) ->
  spares a st st'.
Proof.
  intros Hk Hne. unfold _action_getter.
  destruct (actions !! req_name req) as [[b|h|]|].
  - by apply call_spares.
  - intros [= _ _ <-]. apply spares_refl.
  - intros [= _ _ <-]. apply spares_refl.
  - intros [= _ _ <-]. apply spares_refl.
Qed.

Lemma turn_spares a actions cid fl st :
  keys st -> a <> cid ->
  match turn send throw actions cid fl st with
  | inl (_, st') => spares a st st'
  | inr (st', _) => spares a st st'
  end.
Proof.
  intros Hk Hne. unfold turn.
  destruct (records st !! cid) as [rc|]; [|apply spares_refl].
  assert (Hlog : spares a st (log cid st)) by (intros r Hr; exists r; split;
                                                [exact Hr|apply undisturbed_refl]).
  assert (Hterm : forall v e, spares a st (terminate cid v e (log cid st))).
  { intros v e. eapply spares_trans; [exact Hlog|by apply terminate_spares]. }
  destruct (resume send throw rc) as [req c'|v|e]; [|apply Hterm|apply Hterm].
  assert (Hk1 : keys (upd cid (set_coro (VCoro c')) (log cid st))) by (by apply upd_keys).
  assert (H1 : spares a st (upd cid (set_coro (VCoro c')) (log cid st))).
  { eapply spares_trans; [exact Hlog|]. apply upd_spares. left. congruence. }
  destruct (_action_getter (call cid) actions req
              (fl, upd cid (set_coro (VCoro c')) (log cid st))) as [res [fl' st2]] eqn:Hact.
  pose proof (action_spares a _ _ _ _ _ _ _ _ Hk1 Hne Hact) as H2.
  assert (Hpend : forall v e, spares a st (upd cid (set_pending v e) st2)).
  { intros v e. eapply spares_trans; [exact H1|]. eapply spares_trans; [exact H2|].
    apply upd_spares. left. congruence. }
  destruct res as [v|e]; [apply Hpend|].
  destruct (is_Exception e); [apply Hpend|].
  eapply spares_trans; [exact H1|]. eapply spares_trans; [exact H2|].
  by apply terminate_spares.
Qed.

Lemma drive_spares a actions cid fuel fl st fl' st' s :
  wf st -> a <> cid ->
  drive send throw fuel actions cid fl st = (fl', st', s) ->
  spares a st st'.
Proof.
  intros Hwf Hne. revert fl st Hwf. induction fuel as [|fuel IH]; intros fl st Hwf Hdrive.
  - simpl in Hdrive. destruct (fl && cinfo_active cid st);
      injection Hdrive as <- <- <-; apply spares_refl.
  - simpl in Hdrive. destruct (fl && cinfo_active cid st) eqn:Hg.
    2:{ injection Hdrive as <- <- <-. apply spares_refl. }
    apply andb_true_iff in Hg as [-> Hact].
    pose proof (turn_good actions cid true st Hwf Hact) as Hturn.
    pose proof (turn_spares a actions cid true st (proj1 Hwf) Hne) as Hsp.
    destruct (turn send throw actions cid true st) as [[a1 st1]|[st1 s1]].
    + destruct Hturn as [Hwf1 _]. eapply spares_trans; [exact Hsp|]. by eapply IH.
    + by injection Hdrive as <- <- <-.
Qed.


(** *** What a turn adds to the trace *)

Lemma call_resumed cid b args kwargs fl st res fl' st' :
  call cid b args kwargs (fl, st) = (res, (fl', st')) -> resumed st' = resumed st.
Proof.
  intros Hcall. destruct b; cbn [call fst snd] in Hcall.
  - unfold new_coro, coro_adder_send in Hcall. repeat case_match; simplify_eq; done.
  - unfold wait_coro in Hcall. repeat case_match; simplify_eq; done.
  - destruct (no_arguments args kwargs); simplify_eq; done.
  - destruct (no_arguments args kwargs); simplify_eq; done.
  - destruct (no_arguments args kwargs); simplify_eq; done.
  - destruct (no_arguments args kwargs); simplify_eq; done.
Qed.

Lemma action_resumed cid actions req fl st res fl' st' :
  _action_getter (call cid) actions req (fl, st) = (res, (fl', st')) ->
  resumed st' = resumed st.
Proof.
  unfold _action_getter. destruct (actions !! req_name req) as [[b|h|]|].
  - apply call_resumed.
  - by intros [= _ _ <-].
  - by intros [= _ _ <-].
  - by intros [= _ _ <-].
Qed.

(** A turn resumes the record once. *)
Lemma turn_resumed actions cid fl st rc :
  records st !! cid = Some rc ->
  match turn send throw actions cid fl st with
  | inl (_, st') => resumed st' = resumed st ++ [cid]
  | inr (st', _) => resumed st' = resumed st ++ [cid]
  end.
Proof.
  intros Hrc. unfold turn. rewrite Hrc.
  assert (Hterm : forall v e st2, resumed st2 = resumed st ++ [cid] ->
            resumed (terminate cid v e st2) = resumed st ++ [cid]).
  { intros v e st2 H2. destruct (terminate_fields cid v e st2) as (_ & _ & ->). done. }
  destruct (resume send throw rc) as [req c'|v|e]; [|by apply Hterm|by apply Hterm].
  destruct (_action_getter (call cid) actions req
              (fl, upd cid (set_coro (VCoro c')) (log cid st))) as [res [fl' st2]] eqn:Hact.
  apply action_resumed in Hact. cbn [upd log resumed] in Hact.
  destruct res as [v|e]; [exact Hact|].
  destruct (is_Exception e); [exact Hact|]. by apply Hterm.
Qed.

(** The visit of an active record resumes it at least once. *)
Lemma drive_resumes actions cid fuel st a' st' s :
  wf st -> cinfo_active cid st = true ->
  drive send throw (S fuel) actions cid true st = (a', st', s) ->
  exists n, resumed st' = resumed st ++ cid :: replicate n cid.
Proof.
  intros Hwf Hact Hdrive. cbn [drive] in Hdrive. rewrite Hact in Hdrive. cbn [andb] in Hdrive.
  pose proof (active_live cid st Hwf Hact) as Hlive.
  pose proof (live_lt cid st Hwf Hlive) as Hlt.
  destruct Hlive as (rc & Hrc & _).
  pose proof (turn_good actions cid true st Hwf Hact) as Hturn.
  pose proof (turn_resumed actions cid true st rc Hrc) as Hres.
  destruct (turn send throw actions cid true st) as [[a1 st1]|[st1 s1]].
  - destruct Hturn as [Hwf1 Hf1].
    assert (Hlt1 : cid < id_ st1) by (destruct Hf1 as [? _]; lia).
    destruct (drive_good _ _ _ _ _ _ _ _ Hwf1 Hlt1 Hdrive) as (_ & Hf' & _).
    destruct (follows_replicate _ _ _ Hf') as [n Hn]. exists n.
    by rewrite Hn, Hres, <- app_assoc.
  - injection Hdrive as <- <- <-. exists 0. exact Hres.
Qed.

Lemma visit_resumes actions cid fuel st a' st' :
  wf st -> cinfo_active cid st = true ->
  visit send throw fuel actions cid st = (a', st', Normal) ->
  exists n, resumed st' = resumed st ++ cid :: replicate n cid.
Proof.
  intros Hwf Hact Hv. unfold visit in Hv. rewrite Hact in Hv.
  destruct fuel as [|fuel]; [|by eapply drive_resumes].
  simpl in Hv. rewrite Hact in Hv. discriminate.
Qed.

Lemma sorted_NoDup (l : list nat) : StronglySorted lt l -> NoDup l.
Proof.
  induction 1 as [|a l Hs IH Hall]; constructor; [|done].
  intros Hin. rewrite Forall_forall in Hall. specialize (Hall a Hin). lia.
Qed.

Lemma sorted_rev_NoDup (l : list nat) : StronglySorted lt l -> NoDup (rev l).
Proof.
  intros Hs. rewrite rev_alt. change (rev_append l []) with (reverse l).
  rewrite reverse_Permutation. by apply sorted_NoDup.
Qed.


(** A sweep over a snapshot without repetitions that is not cut short: every
    record that is active when the sweep starts is resumed in it. *)
Lemma sweep_over_counts actions fuel snapshot st st' :
  wf st -> (forall x, x ∈ snapshot -> x < id_ st) -> NoDup snapshot ->
  sweep_over send throw fuel actions snapshot st = (st', Normal) ->
  exists counts,
    length counts = length snapshot
    /\ resumed st' = resumed st ++ concat (zip_with replicate counts snapshot)
    /\ forall k cid, snapshot !! k = Some cid -> cinfo_active cid st = true ->
                     exists c, counts !! k = Some (S c).
Proof.
  revert st. induction snapshot as [|cid rest IH]; intros st Hwf Hlt Hnd Hsw.
  - simpl in Hsw. exists []. split; [done|]. injection Hsw as <-.
    split; [simpl; by rewrite app_nil_r|]. intros k cid Hk. by rewrite lookup_nil in Hk.
  - simpl in Hsw. apply NoDup_cons in Hnd as [Hnin Hnd].
    destruct (visit send throw fuel actions cid st) as [[a1 st1] s1] eqn:Hvisit.
    assert (Hc : cid < id_ st) by (apply Hlt; left).
    destruct (visit_good _ _ _ _ _ _ _ Hwf Hc Hvisit) as (Hwf1 & Hf1 & _).
    destruct s1; [|by injection Hsw|by injection Hsw].
    destruct (IH st1 Hwf1) as (counts & Hlen & Hres & Hpos); [|done|done|].
    { intros x Hx. destruct Hf1 as [Hle _].
      assert (x < id_ st) by (apply Hlt; by right). lia. }
    assert (Hn : exists n, resumed st1 = resumed st ++ replicate n cid
                           /\ (cinfo_active cid st = true -> exists c, n = S c)).
    { destruct (cinfo_active cid st) eqn:Hact.
      - destruct (visit_resumes _ _ _ _ _ _ Hwf Hact Hvisit) as [n Hn].
        exists (S n). split; [exact Hn|]. intros _. by exists n.
      - destruct (follows_replicate _ _ _ Hf1) as [n Hn]. exists n. split; [exact Hn|done]. }
    destruct Hn as (n & Hn & Hnpos).
    exists (n :: counts). split; [simpl; by rewrite Hlen|].
    split; [simpl; by rewrite Hres, Hn, app_assoc|].
    intros k cid' Hk Hact. destruct k as [|k]; simpl in Hk.
    + injection Hk as <-. destruct (Hnpos Hact) as [c ->]. by exists c.
    + simpl. apply (Hpos k cid' Hk).
      assert (Hne : cid' <> cid).
      { intros ->. apply Hnin. by eapply list_elem_of_lookup_2. }
      unfold cinfo_active in *.
      destruct (records st !! cid') as [r|] eqn:Hr; [|done].
      destruct (drive_spares cid' _ _ _ _ _ _ _ _ Hwf Hne Hvisit r Hr)
        as (r' & -> & _ & _ & Ha & _).
      by apply Ha.
Qed.

(** The local [active] of a sweep is cleared by [schedule] alone. *)
Lemma flag_cleared_by_schedule actions cid (req : request coroutine) st res st' :
  _action_getter (call cid) actions req (true, st) = (res, (false, st')) ->
  actions !! req_name req = Some (Closure Schedule) /\ res = Ok VNone /\ st' = st.
Proof.
  unfold _action_getter. destruct (actions !! req_name req) as [[b|h|]|]; [|done..].
  destruct b; cbn [call fst snd]; unfold new_coro, wait_coro;
    intros H; repeat case_match; simplify_eq; done.
Qed.

(** The inner loop is left with the local [active] cleared only after a
    turn in which the task asked for [schedule]: the record is then as the
    turn found it but for [coro], [val] and [exc], active and not
    terminated. *)
Lemma drive_left_on_flag actions cid fuel st st' :
  wf st ->
  drive send throw fuel actions cid true st = (false, st', Normal) ->
  exists s rc req c',
    records s !! cid = Some rc /\ active rc = true /\ terminated rc = false
    /\ resume send throw rc = Yielded req c'
    /\ actions !! req_name req = Some (Closure Schedule)
    /\ st' = upd cid (set_pending VNone None) (upd cid (set_coro (VCoro c')) (log cid s))
    /\ records st' !! cid = Some (Info VNone None (VCoro c') true false (waiting_coros rc)).
Proof.
  revert st. induction fuel as [|fuel IH]; intros st Hwf Hdrive; simpl in Hdrive.
  - destruct (cinfo_active cid st); discriminate.
  - destruct (cinfo_active cid st) eqn:Hact; [|discriminate].
    pose proof (turn_good actions cid true st Hwf Hact) as Hgood.
    destruct (turn send throw actions cid true st) as [[a1 st1]|[st1 s1]] eqn:Hturn;
      [|discriminate].
    destruct Hgood as [Hwf1 _].
    destruct a1; [by apply (IH st1)|].
    assert (Hst' : st' = st1).
    { destruct fuel; simpl in Hdrive; by injection Hdrive as <-. }
    subst st1.
    destruct (active_live cid st Hwf Hact) as (rc & Hrc & Htc).
    assert (Harc : active rc = true) by (unfold cinfo_active in Hact; by rewrite Hrc in Hact).
    unfold turn in Hturn. rewrite Hrc in Hturn.
    destruct (resume send throw rc) as [req c'|v|e] eqn:Hres; [|discriminate..].
    destruct (_action_getter (call cid) actions req
                (true, upd cid (set_coro (VCoro c')) (log cid st))) as [r [a2 st2]] eqn:Hget.
    assert (Ha2 : a2 = false).
    { destruct r as [v|e]; [by injection Hturn as <- _|].
      destruct (is_Exception e); [by injection Hturn as <- _|discriminate]. }
    subst a2. destruct (flag_cleared_by_schedule _ _ _ _ _ _ Hget) as (Hs & -> & ->).
    injection Hturn as <-.
    exists st, rc, req, c'. do 5 (split; [done|]). split; [done|].
    rewrite !upd_lookup_eq. cbn [log records]. rewrite Hrc.
    unfold set_pending, set_coro. cbn. by rewrite Harc, Htc.
Qed.

(** C6.  The registry is kept in the order the records were created in.
    A sweep that is not cut short resumes the records of its snapshot in
    the reverse of that order, each one a number of times in a row, and a
    record that is active when the sweep starts at least once.  The visit
    of a record is left, before the rest of the snapshot is visited, when
    [active and cinfo["active"]] is false: the record is inactive (as a
    terminated record is), or its task has just asked for [schedule],
    which clears the local [active] and nothing else does: the record is
    then left active and not terminated. *)
Theorem sweep_reverse_order :
  forall actions fuel st st',
    wf st ->
    sweep send throw fuel actions st = (st', Normal) ->
    StronglySorted lt (coro_info st)
    /\ (forall i j, i ∈ coro_info st -> j ∈ coro_info st -> i < j ->
          exists l1 l2 l3, rev (coro_info st) = l1 ++ j :: l2 ++ i :: l3)
    /\ (exists counts,
          length counts = length (coro_info st)
          /\ resumed st' = resumed st ++ concat (zip_with replicate counts (rev (coro_info st)))
          /\ forall k cid, rev (coro_info st) !! k = Some cid -> cinfo_active cid st = true ->
                           exists c, counts !! k = Some (S c))
    /\ (forall cid rest s0 s2,
          wf s0 -> (forall x, x ∈ cid :: rest -> x < id_ s0) ->
          sweep_over send throw fuel actions (cid :: rest) s0 = (s2, Normal) ->
          exists a s1,
            visit send throw fuel actions cid s0 = (a, s1, Normal)
            /\ (cinfo_active cid s1 = false
                \/ (a = false
                    /\ exists s rc req c',
                         records s !! cid = Some rc /\ active rc = true
                         /\ terminated rc = false
                         /\ resume send throw rc = Yielded req c'
                         /\ actions !! req_name req = Some (Closure Schedule)
                         /\ s1 = upd cid (set_pending VNone None)
                                   (upd cid (set_coro (VCoro c')) (log cid s))
                         /\ records s1 !! cid
                            = Some (Info VNone None (VCoro c') true false (waiting_coros rc))))
            /\ (cinfo_terminated cid s1 = true -> cinfo_active cid s1 = false)
            /\ (cinfo_active cid s0 = true ->
                exists n, resumed s1 = resumed s0 ++ cid :: replicate n cid)
            /\ sweep_over send throw fuel actions rest s1 = (s2, Normal))
    /\ (forall cid (req : request coroutine) s0 res s1,
          _action_getter (call cid) actions req (true, s0) = (res, (false, s1)) ->
          actions !! req_name req = Some (Closure Schedule) /\ res = Ok VNone /\ s1 = s0).
Proof.
  intros actions fuel st st' Hwf Hsw.
  assert (Hsorted : StronglySorted lt (coro_info st)) by apply Hwf.
  split; [done|]. split; [intros i j; by apply sorted_rev_order|]. split; [|split].
  - unfold sweep in Hsw.
    destruct (sweep_over_counts actions fuel (rev (coro_info st)) st st' Hwf)
      as (counts & Hlen & Hres & Hpos); [| |done|].
    + intros x Hx. apply registry_lt; [done|]. exact (proj1 (elem_of_rev _ _) Hx).
    + by apply sorted_rev_NoDup.
    + exists counts. split; [by rewrite Hlen, length_rev|]. by split.
  - intros cid rest s0 s2 Hwf0 Hlt Hso. simpl in Hso.
    destruct (visit send throw fuel actions cid s0) as [[a s1] s] eqn:Hv.
    assert (Hc : cid < id_ s0) by (apply Hlt; left).
    destruct (visit_good _ _ _ _ _ _ _ Hwf0 Hc Hv) as (Hwf1 & _ & Hg).
    destruct s; [|by injection Hso|by injection Hso].
    exists a, s1. split; [done|]. split.
    { specialize (Hg eq_refl). apply andb_false_iff in Hg as [->|Hg]; [|by left].
      unfold visit in Hv. destruct (cinfo_active cid s0) eqn:Hact0.
      - right. split; [done|]. exact (drive_left_on_flag actions cid fuel s0 s1 Hwf0 Hv).
      - left. rewrite drive_inactive in Hv by done. by injection Hv as <-. }
    split; [by apply terminated_inactive|]. split; [|done].
    intros Hact. by eapply visit_resumes.
  - intros cid req s0 res s1. apply flag_cleared_by_schedule.
Qed.

(** C7, as the code has it.  A sweep resumes only records of the snapshot
    taken when it starts: a record created during the sweep is not
    resumed in it.  It is in the registry when the sweep ends, to be
    visited in the next sweep, where any record comes before those
    created earlier. *)
Theorem late_spawn_next_sweep :
  forall actions fuel st st' s,
    wf st ->
    sweep send throw fuel actions st = (st', s) ->
    (exists l, resumed st' = resumed st ++ l
       /\ forall x, x ∈ l -> x ∈ coro_info st /\ x < id_ st)
    /\ (forall i, id_ st <= i -> i < id_ st' -> i ∈ coro_info st')
    /\ (forall i j, i ∈ coro_info st' -> j ∈ coro_info st' -> i < j ->
          exists l1 l2 l3, rev (coro_info st') = l1 ++ j :: l2 ++ i :: l3).
Proof.
  intros actions fuel st st' s Hwf Hsw.
  destruct (sweep_good _ _ _ _ _ Hwf Hsw) as (Hwf' & (_ & (l & Hl & Hin) & _ & Hnew & _) & _).
  split; [|split; [exact Hnew|]].
  - exists l. split; [done|]. intros x Hx. split; [by apply Hin|].
    apply registry_lt; [done|by apply Hin].
  - intros i j. apply sorted_rev_order. apply Hwf'.
Qed.

Lemma drive_step actions cid fuel st a' st' :
  cinfo_active cid st = true ->
  turn send throw actions cid true st = inl (a', st') ->
  drive send throw (S fuel) actions cid true st = drive send throw fuel actions cid a' st'.
Proof. intros Ha Ht. cbn [drive]. by rewrite Ha, Ht. Qed.

Lemma drive_end actions cid fuel st st' s :
  cinfo_active cid st = true ->
  turn send throw actions cid true st = inr (st', s) ->
  drive send throw (S fuel) actions cid true st = (true, st', s).
Proof. intros Ha Ht. cbn [drive]. by rewrite Ha, Ht. Qed.


(** The scenario of C1, sweep by sweep: the root [cA] spawns [cB] and
    waits for it; [cB] returns [vB] when first resumed. *)
Section SpawnWait.
Context (actions : gmap string (pyobj coroutine closure)).
Context (cA cA1 cA2 cB : coroutine) (vA vB : value coroutine).
Context (Hnew : actions !! "new_coro" = Some (Closure NewCoro)).
Context (Hwait : actions !! "wait_coro" = Some (Closure WaitCoro)).
Context (HA : send cA VNone = Yielded (Request "new_coro" [VCoro cB] []) cA1).
Context (HA1 : send cA1 (VInfo 1) = Yielded (Request "wait_coro" [VInfo 1] []) cA2).
Context (HA2 : send cA2 VNone = Returned vA).
Context (HB : send cB VNone = Returned vB).




End SpawnWait.




End RotatorFacts.

(** ** The theorems at concrete inputs *)

Section Instances.
Import Script.



Lemma setup_not_atomic_witness :
  exists m',
    IRotator.run send throw 3 (VCoro waiter) (Dict {["schedule" := Opaque]})
      = (Dict m', Some (Err (ValueError "'schedule' is in 'actions'")))
    /\ m' !! "schedule" = Some Opaque
    /\ m' !! "new_coro" = Some (Closure IRotator.NewCoro)
    /\ m' !! "wait_coro" = Some (Closure IRotator.WaitCoro)
    /\ m' !! "this_id" = Some (Closure IRotator.ThisId)
    /\ m' !! "this_info" = Some (Closure IRotator.ThisInfo)
    /\ m' !! "all_info" = Some (Closure IRotator.AllInfo)
    /\ m' <> {["schedule" := Opaque]}.
Proof. exact (proj2 (setup_not_atomic send throw) 3 (VCoro waiter) Opaque). Defined.



(** [run] on a root whose sub-task raises: without a handler the
    exception comes out of [run]; with one, the root goes on. *)
Example run_caller_raises :
  snd (IStack.run send throw 5 (VCoro caller) (Dict ∅)) = Some (Err (TaskError 1)).
Proof. vm_compute. reflexivity. Qed.

Example run_caller_catches :
  snd (IStack.run send throw 5
         (VCoro [Call "stack_add" [Spawn failing]; Caught; Return (Lit 3)]) (Dict ∅))
  = Some (Ok (VInt 3)).
Proof. vm_compute. reflexivity. Qed.

Lemma trampoline_depth_independence_witness :
  snd (IStack.run send throw (2 * 100 + 1 + 0) (VCoro (nest 100 7)) (Dict ∅))
  = Some (Ok (VInt 7)).
Proof.
  apply (trampoline_depth_independence send throw (fun n => nest n 7)
           (fun _ => [Return Last]) (VInt 7) ∅).
  - reflexivity.
  - reflexivity.
  - intros n. reflexivity.
  - intros n v. reflexivity.
Defined.

Import IRotator.



Lemma wait_coro_semantics_witness :
  let st := State [0; 1]
              (<[1 := new_info (VCoro child)]>
                 (<[0 := Info (VInfo 1) None
                           (VCoro [Call "wait_coro" [Last]; Return (Lit 9)]) true false []]> ∅))
              2 [0] in
  let st2 := upd 0 (set_pending VNone None)
               (_suspend 0 (upd 1 (add_waiter 0)
                  (upd 0 (set_coro (VCoro [Return (Lit 9)])) (log 0 st)))) in
  drive send throw 4 rotator_actions 0 true st = (true, st2, Normal)
  /\ cinfo_active 0 st2 = false
  /\ cinfo_waiting 1 st2 = [] ++ [0].
Proof.
  intros st st2.
  apply (proj1 (proj2 (proj2 (wait_coro_semantics send throw)))
           rotator_actions 0 1 st
           (Info (VInfo 1) None (VCoro [Call "wait_coro" [Last]; Return (Lit 9)]) true false [])
           (new_info (VCoro child)) [Return (Lit 9)] 3);
    reflexivity.
Defined.

Lemma sweep_reverse_order_witness :
  let st1 := fst (sweep send throw 9 rotator_actions (start (VCoro spawn3))) in
  let st2 := fst (sweep send throw 9 rotator_actions st1) in
  coro_info st1 = [0; 1; 2; 3]
  /\ sweep send throw 9 rotator_actions st1 = (st2, Normal)
  /\ resumed st2 = resumed st1 ++ [3; 2; 1; 0]
  /\ exists counts,
       length counts = length (coro_info st1)
       /\ resumed st2 = resumed st1 ++ concat (zip_with replicate counts (rev (coro_info st1)))
       /\ forall k cid, rev (coro_info st1) !! k = Some cid -> cinfo_active cid st1 = true ->
                        exists c, counts !! k = Some (S c).
Proof.
  intros st1 st2.
  assert (Hwf : wf st1).
  { apply (sweep_good send throw rotator_actions 9 (start (VCoro spawn3)) st1
             (snd (sweep send throw 9 rotator_actions (start (VCoro spawn3))))
             (start_wf _) (surjective_pairing _)). }
  assert (Hsw : sweep send throw 9 rotator_actions st1 = (st2, Normal))
    by (vm_compute; reflexivity).
  split; [vm_compute; reflexivity|]. split; [exact Hsw|].
  split; [vm_compute; reflexivity|].
  exact (proj1 (proj2 (proj2 (sweep_reverse_order send throw rotator_actions 9 st1 st2
                                Hwf Hsw)))).
Defined.

(** C6 as stated fails: in the second sweep over a root and three tasks
    that call [schedule], the visit of record 3 ends on the local
    [active], with the record itself still active and not terminated, and
    records 2, 1 and 0 are resumed after it. *)
Example visit_left_on_schedule :
  let st1 := fst (sweep send throw 9 rotator_actions (start (VCoro spawn3))) in
  let v := visit send throw 9 rotator_actions 3 st1 in
  rev (coro_info st1) = [3; 2; 1; 0]
  /\ snd v = Normal
  /\ cinfo_active 3 (snd (fst v)) = true
  /\ cinfo_terminated 3 (snd (fst v)) = false
  /\ resumed (snd (fst v)) = resumed st1 ++ [3]
  /\ resumed (fst (sweep send throw 9 rotator_actions st1)) = resumed st1 ++ [3; 2; 1; 0].
Proof. cbv zeta. repeat split; vm_compute; reflexivity. Qed.

(** C7 as stated fails: the root spawns a child (id 1) and yields; when
    the sweep ends the child is registered but was not resumed. *)
Lemma late_spawn_counterexample :
  let st0 := start (VCoro spawner) in
  let st1 := fst (sweep send throw 9 rotator_actions st0) in
  snd (sweep send throw 9 rotator_actions st0) = Normal
  /\ id_ st0 = 1 /\ id_ st1 = 2
  /\ coro_info st1 = [0; 1]
  /\ records st1 !! 1 = Some (new_info (VCoro child))
  /\ resumed st1 = [0; 0]
  /\ 1 ∉ resumed st1.
Proof.
  cbv zeta. repeat split; try (vm_compute; reflexivity).
  replace (resumed (fst (sweep send throw 9 rotator_actions (start (VCoro spawner)))))
    with [0; 0] by (vm_compute; reflexivity).
  intros H. apply elem_of_cons in H as [H|H]; [discriminate|].
  apply elem_of_cons in H as [H|H]; [discriminate|]. by apply elem_of_nil in H.
Qed.

Lemma late_spawn_next_sweep_witness :
  let st0 := start (VCoro spawner) in
  let st1 := fst (sweep send throw 9 rotator_actions st0) in
  (exists l, resumed st1 = resumed st0 ++ l
     /\ forall x, x ∈ l -> x ∈ coro_info st0 /\ x < id_ st0)
  /\ (forall i, id_ st0 <= i -> i < id_ st1 -> i ∈ coro_info st1)
  /\ (forall i j, i ∈ coro_info st1 -> j ∈ coro_info st1 -> i < j ->
        exists l1 l2 l3, rev (coro_info st1) = l1 ++ j :: l2 ++ i :: l3).
Proof.
  intros st0 st1.
  exact (late_spawn_next_sweep send throw rotator_actions 9 st0 st1
           (snd (sweep send throw 9 rotator_actions st0))
           (start_wf _) (surjective_pairing _)).
Defined.

(** C8 as stated fails: after [schedule()] the record of the caller still
    has [active] true; the sweep that ran the call leaves it so. *)
Lemma schedule_counterexample :
  let st := start (VCoro yielder) in
  let st1 := fst (sweep send throw 9 rotator_actions st) in
  call 0 Schedule [] [] (true, st) = (Ok VNone, (false, st))
  /\ cinfo_active 0 (snd (snd (call 0 Schedule [] [] (true, st)))) = true
  /\ resumed st1 = [0]
  /\ records st1 !! 0 = Some (Info VNone None (VCoro [Return (Lit 1)]) true false [])
  /\ cinfo_active 0 st1 = true.
Proof. cbv zeta. repeat split; vm_compute; reflexivity. Qed.

Lemma schedule_semantics_witness :
  let st := start (VCoro yielder) in
  let st' := upd 0 (set_pending VNone None)
               (upd 0 (set_coro (VCoro [Return (Lit 1)])) (log 0 st)) in
  drive send throw 4 rotator_actions 0 true st = (false, st', Normal)
  /\ records st' !! 0 = Some (Info VNone None (VCoro [Return (Lit 1)]) true false [])
  /\ cinfo_active 0 st' = true
  /\ (forall j, j <> 0 -> records st' !! j = records st !! j)
  /\ coro_info st' = coro_info st
  /\ visit send throw 4 rotator_actions 0 st' = drive send throw 4 rotator_actions 0 true st'.
Proof.
  intros st st'.
  apply (proj2 (schedule_semantics send throw) rotator_actions 0 st
           (new_info (VCoro yielder)) [Return (Lit 1)] 3);
    reflexivity.
Defined.

Lemma terminated_is_final_witness :
  let st := fst (sweep send throw 9 rotator_actions
                   (fst (sweep send throw 9 rotator_actions (start (VCoro lingerer))))) in
  let r := Info (VInt 5) None (VCoro child) false true [0] in
  let st' := Nat.iter 2 (fun s => fst (sweep send throw 9 rotator_actions s)) st in
  records st !! 1 = Some r
  /\ wf st' /\ records st' !! 1 = Some r /\ active r = false /\ 1 ∉ coro_info st'.
Proof.
  intros st r st'.
  assert (Hwf1 : wf (fst (sweep send throw 9 rotator_actions (start (VCoro lingerer))))).
  { apply (proj1 (proj2 (proj2 (terminated_is_final send throw))) rotator_actions 9
             (start (VCoro lingerer)) _
             (snd (sweep send throw 9 rotator_actions (start (VCoro lingerer))))
             (start_wf _) (surjective_pairing _)). }
  assert (Hwf : wf st).
  { apply (proj1 (proj2 (proj2 (terminated_is_final send throw))) rotator_actions 9 _ st
             (snd (sweep send throw 9 rotator_actions
                     (fst (sweep send throw 9 rotator_actions (start (VCoro lingerer))))))
             Hwf1 (surjective_pairing _)). }
  assert (Hr : records st !! 1 = Some r) by (vm_compute; reflexivity).
  split; [exact Hr|].
  exact (proj1 (proj2 (proj2 (proj2 (terminated_is_final send throw)))) rotator_actions 9
           st 2 1 r Hwf Hr eq_refl).
Defined.

End Instances.

(** * More of the code *)

(** ** The trampoline runner: requests, results and the frame list *)

Section StackMore.
Context {coroutine : Type}.
Context (send : coroutine -> value coroutine -> outcome coroutine).
Context (throw : coroutine -> exn -> outcome coroutine).
Implicit Types m : gmap string (pyobj coroutine IStack.closure).
Implicit Types frames : list (value coroutine).

(** A request served by an action of the embedder that returns [x]: the
    frame list keeps its length, the top frame is the coroutine as its
    [yield] left it, and the next turn resumes it with [send(x)]. *)
Theorem stack_action_round_trip m frames top v0 pe name args kwargs c' h x :
  IStack.resume_top send throw (IStack.State (frames ++ [top]) v0 pe)
    = Yielded (Request name args kwargs) c' ->
  m !! name = Some (Handler h) ->
  h args kwargs = Ok x ->
  IStack.iteration send throw m (IStack.State (frames ++ [top]) v0 pe)
    = inl (IStack.State (frames ++ [VCoro c']) x None)
  /\ IStack.resume_top send throw (IStack.State (frames ++ [VCoro c']) x None) = send c' x.
Proof.
  intros Hres Hm Hh. split; [|by rewrite resume_top_snoc].
  unfold IStack.iteration. rewrite Hres. cbn [IStack.stack]. rewrite set_top_snoc.
  unfold _action_getter. cbn [req_name req_args req_kwargs]. by rewrite Hm, Hh.
Qed.

(** A request that fails with an exception [e] under [Exception] (no
    action of that name: [KeyError name]; an entry that is not callable: a
    [TypeError]; an action that raises [e]): no frame is popped and [e] is
    left pending.  The next turn resumes the requesting frame with
    [throw(e)] when [e] is truthy, as the [KeyError] and the [TypeError]
    are, and with [send(None)] when [e] is falsy. *)
Theorem stack_action_failure m frames top v0 pe name args kwargs c' :
  IStack.resume_top send throw (IStack.State (frames ++ [top]) v0 pe)
    = Yielded (Request name args kwargs) c' ->
  m !! name = None
  \/ m !! name = Some Opaque
  \/ (exists h e0, m !! name = Some (Handler h) /\ h args kwargs = Err e0
                   /\ is_Exception e0 = true) ->
  exists e,
    IStack.iteration send throw m (IStack.State (frames ++ [top]) v0 pe)
      = inl (IStack.State (frames ++ [VCoro c']) VNone (Some e))
    /\ IStack.resume_top send throw (IStack.State (frames ++ [VCoro c']) VNone (Some e))
       = (if truthy e then throw c' e else send c' VNone)
    /\ is_Exception e = true
    /\ (m !! name = None -> e = KeyError name /\ truthy e = true)
    /\ (m !! name = Some Opaque -> (exists msg, e = TypeError msg) /\ truthy e = true)
    /\ (forall h, m !! name = Some (Handler h) -> h args kwargs = Err e).
Proof.
  intros Hres Hcase.
  assert (Hit : forall e,
            fst (_action_getter IStack.call m (Request name args kwargs) (frames ++ [VCoro c']))
              = Err e ->
            snd (_action_getter IStack.call m (Request name args kwargs) (frames ++ [VCoro c']))
              = frames ++ [VCoro c'] ->
            is_Exception e = true ->
            IStack.iteration send throw m (IStack.State (frames ++ [top]) v0 pe)
              = inl (IStack.State (frames ++ [VCoro c']) VNone (Some e))).
  { intros e H1 H2 He. unfold IStack.iteration. rewrite Hres. cbn [IStack.stack].
    rewrite set_top_snoc.
    destruct (_action_getter IStack.call m (Request name args kwargs) (frames ++ [VCoro c']))
      as [r stk]. simpl in H1, H2. subst. by rewrite He. }
  unfold _action_getter in Hit. cbn [req_name req_args req_kwargs] in Hit.
  destruct Hcase as [Hm|[Hm|(h & e0 & Hm & Hh & He)]]; rewrite Hm in Hit.
  - exists (KeyError name). split; [by apply Hit|]. split; [by rewrite resume_top_snoc|].
    split; [done|]. split; [done|]. split; [congruence|congruence].
  - eexists. split; [by apply Hit|]. split; [by rewrite resume_top_snoc|].
    split; [done|]. split; [congruence|]. split; [intros _; split; [by eexists|done]|congruence].
  - exists e0. split; [apply Hit; [by rewrite Hh|done|done]|].
    split; [by rewrite resume_top_snoc|]. split; [done|].
    split; [congruence|]. split; [congruence|]. intros h' Hh'. congruence.
Qed.

(** An action that raises an exception [e] outside [Exception]: the
    [except BaseException] clause takes it for the end of the requesting
    frame.  Above the root that frame is popped, though its coroutine has
    not ended, and [e] is left pending for the frame under it; at the
    root the loop raises [e]. *)
Theorem stack_action_fatal m frames top v0 pe name args kwargs c' h e :
  IStack.resume_top send throw (IStack.State (frames ++ [top]) v0 pe)
    = Yielded (Request name args kwargs) c' ->
  m !! name = Some (Handler h) ->
  h args kwargs = Err e ->
  is_Exception e = false ->
  IStack.iteration send throw m (IStack.State (frames ++ [top]) v0 pe)
  = match frames with
    | [] => inr (Err e)
    | _ :: _ => inl (IStack.State frames VNone (Some e))
    end.
Proof.
  intros Hres Hm Hh He.
  unfold IStack.iteration. rewrite Hres. cbn [IStack.stack]. rewrite set_top_snoc.
  unfold _action_getter. cbn [req_name req_args req_kwargs]. rewrite Hm, Hh, He.
  unfold IStack.on_raise. rewrite length_snoc_gt, removelast_last.
  by destruct frames.
Qed.

(** [await stack_add(sub)] gives what [sub] returns: the request pushes
    [sub], which is resumed with [send(None)]; when it returns [v] at
    once it is popped, and the caller is resumed with [send(v)]. *)
Theorem stack_add_returns_value m frames top v0 pe sub c1 v :
  m !! "stack_add" = Some (Closure IStack.StackAdd) ->
  IStack.resume_top send throw (IStack.State (frames ++ [top]) v0 pe)
    = Yielded (Request "stack_add" [sub] []) c1 ->
  obj_send send sub VNone = Returned v ->
  IStack.iteration send throw m (IStack.State (frames ++ [top]) v0 pe)
    = inl (IStack.State (frames ++ [VCoro c1; sub]) VNone None)
  /\ IStack.iteration send throw m (IStack.State (frames ++ [VCoro c1; sub]) VNone None)
     = inl (IStack.State (frames ++ [VCoro c1]) v None)
  /\ IStack.resume_top send throw (IStack.State (frames ++ [VCoro c1]) v None) = send c1 v
  /\ forall fuel,
       IStack.loop send throw (2 + fuel) m (IStack.State (frames ++ [top]) v0 pe)
       = IStack.loop send throw fuel m (IStack.State (frames ++ [VCoro c1]) v None).
Proof.
  intros Hm Hres Hsub.
  assert (H1 : IStack.iteration send throw m (IStack.State (frames ++ [top]) v0 pe)
               = inl (IStack.State (frames ++ [VCoro c1; sub]) VNone None)).
  { unfold IStack.iteration. rewrite Hres. cbn [IStack.stack]. rewrite set_top_snoc.
    unfold _action_getter. cbn [req_name req_args req_kwargs]. rewrite Hm.
    cbn [IStack.call IStack.stack_add]. by rewrite <- app_assoc. }
  assert (H2 : IStack.iteration send throw m (IStack.State (frames ++ [VCoro c1; sub]) VNone None)
               = inl (IStack.State (frames ++ [VCoro c1]) v None)).
  { replace (frames ++ [VCoro c1; sub]) with ((frames ++ [VCoro c1]) ++ [sub])
      by (by rewrite <- app_assoc).
    unfold IStack.iteration. rewrite resume_top_snoc, Hsub.
    unfold IStack.on_return. cbn [IStack.stack]. rewrite length_snoc_gt, removelast_last.
    by destruct frames. }
  split; [done|]. split; [done|]. split; [by rewrite resume_top_snoc|].
  intros fuel. change (2 + fuel) with (S (S fuel)). cbn [IStack.loop]. by rewrite H1, H2.
Qed.

(** [stack_add] pushes whatever it is given.  An object that is not a
    coroutine is pushed all the same; resuming it raises [AttributeError],
    it is popped, and the caller is resumed with that exception thrown. *)
Theorem stack_add_not_a_coroutine m frames top v0 pe sub c1 :
  m !! "stack_add" = Some (Closure IStack.StackAdd) ->
  IStack.resume_top send throw (IStack.State (frames ++ [top]) v0 pe)
    = Yielded (Request "stack_add" [sub] []) c1 ->
  (forall c, sub <> VCoro c) ->
  IStack.iteration send throw m (IStack.State (frames ++ [top]) v0 pe)
    = inl (IStack.State (frames ++ [VCoro c1; sub]) VNone None)
  /\ forall fuel,
       IStack.loop send throw (2 + fuel) m (IStack.State (frames ++ [top]) v0 pe)
       = IStack.loop send throw fuel m
           (IStack.State (frames ++ [VCoro c1]) VNone
              (Some (AttributeError "object has no attribute 'send'"))).
Proof.
  intros Hm Hres Hsub.
  assert (H1 : IStack.iteration send throw m (IStack.State (frames ++ [top]) v0 pe)
               = inl (IStack.State (frames ++ [VCoro c1; sub]) VNone None)).
  { unfold IStack.iteration. rewrite Hres. cbn [IStack.stack]. rewrite set_top_snoc.
    unfold _action_getter. cbn [req_name req_args req_kwargs]. rewrite Hm.
    cbn [IStack.call IStack.stack_add]. by rewrite <- app_assoc. }
  split; [done|].
  intros fuel. change (2 + fuel) with (S (S fuel)). cbn [IStack.loop]. rewrite H1.
  replace (frames ++ [VCoro c1; sub]) with ((frames ++ [VCoro c1]) ++ [sub])
    by (by rewrite <- app_assoc).
  unfold IStack.iteration. rewrite resume_top_snoc.
  assert (Hs : obj_send send sub VNone
               = Raised (AttributeError "object has no attribute 'send'")).
  { destruct sub; try reflexivity. by destruct (Hsub c). }
  rewrite Hs. unfold IStack.on_raise. cbn [IStack.stack].
  rewrite length_snoc_gt, removelast_last.
  by destruct frames.
Qed.

Lemma stack_add_effect (args : list (value coroutine)) kwargs stk r stk' :
  IStack.stack_add args kwargs stk = (r, stk') ->
  stk' = stk \/ exists new, stk' = stk ++ [new].
Proof.
  unfold IStack.stack_add. intros H.
  repeat case_match; simplify_eq; eauto.
Qed.

Lemma stack_action_effect m (req : request coroutine) stk r stk' :
  _action_getter IStack.call m req stk = (r, stk') ->
  stk' = stk \/ exists new, stk' = stk ++ [new].
Proof.
  unfold _action_getter. intros H.
  destruct (m !! req_name req) as [[[]|h|]|]; simplify_eq; eauto.
  by eapply stack_add_effect.
Qed.

(** The frame list under the top frame is never touched.  A turn of the
    loop on a non-empty frame list either pops the top frame, leaving a
    non-empty list, or replaces it by the same coroutine one step on, or
    does that and pushes one frame; and the loop ends only on a frame
    list of length one. *)
Theorem stack_frame_discipline m st :
  IStack.stack st <> [] ->
  exists frames top,
    IStack.stack st = frames ++ [top]
    /\ match IStack.iteration send throw m st with
       | inl st' =>
           (IStack.stack st' = frames /\ frames <> [])
           \/ (exists top', IStack.stack st' = frames ++ [top'])
           \/ (exists top' new, IStack.stack st' = frames ++ [top'; new])
       | inr _ => frames = []
       end.
Proof.
  intros Hne. destruct st as [stk v e]. cbn [IStack.stack] in *.
  destruct stk as [|x stk] using rev_ind; [done|]. clear IHstk Hne.
  rename stk into frames. exists frames, x. split; [done|].
  assert (Hraise : forall e0,
            match IStack.on_raise (frames ++ [x]) e0 with
            | inl st' => IStack.stack st' = frames /\ frames <> []
            | inr _ => frames = []
            end).
  { intros e0. unfold IStack.on_raise. rewrite length_snoc_gt, removelast_last.
    by destruct frames. }
  unfold IStack.iteration. cbn [IStack.stack].
  destruct (IStack.resume_top send throw (IStack.State (frames ++ [x]) v e)) as [req c'|v'|e'].
  - rewrite set_top_snoc.
    destruct (_action_getter IStack.call m req (frames ++ [VCoro c'])) as [r stk'] eqn:Hact.
    apply stack_action_effect in Hact.
    assert (Hkeep : (exists top', stk' = frames ++ [top'])
                    \/ (exists top' new, stk' = frames ++ [top'; new])).
    { destruct Hact as [->|[new ->]]; [left; eauto|right].
      exists (VCoro c'), new. by rewrite <- app_assoc. }
    destruct r as [v'|e'].
    + right. exact Hkeep.
    + destruct (is_Exception e'); [right; exact Hkeep|].
      unfold IStack.on_raise.
      destruct Hkeep as [[top' ->]|(top' & new & ->)].
      * rewrite length_snoc_gt, removelast_last. destruct frames; [done|]. left. done.
      * replace (frames ++ [top'; new]) with ((frames ++ [top']) ++ [new])
          by (by rewrite <- app_assoc).
        rewrite length_snoc_gt, removelast_last.
        destruct (frames ++ [top']) eqn:E; [by destruct frames|].
        simpl. right. left. exists top'. by rewrite <- E.
  - unfold IStack.on_return. rewrite length_snoc_gt, removelast_last.
    destruct frames; [done|]. left. done.
  - pose proof (Hraise e') as H. destruct (IStack.on_raise (frames ++ [x]) e'); [by left|done].
Qed.

(** [run] leaves its reserved names bound in the caller's dict: a dict
    that has been through a [run] of an engine that got past setup makes
    every later [run] of that same engine fail at setup, with the
    [ValueError] of a duplicate name, and is left as it is. *)
Theorem run_twice_fails :
  (forall fuel c m m' r,
     (forall n, n ∈ IStack._reserved -> m !! n = None) ->
     IStack.run send throw fuel c (Dict m) = (Dict m', r) ->
     forall fuel2 c2,
       IStack.run send throw fuel2 c2 (Dict m')
       = (Dict m', Some (Err (ValueError "'stack_add' is in 'actions'"))))
  /\ (forall fuel c (m m' : gmap string (pyobj coroutine IRotator.closure)) r,
        (forall n, n ∈ IRotator._reserved -> m !! n = None) ->
        IRotator.run send throw fuel c (Dict m) = (Dict m', r) ->
        forall fuel2 c2,
          IRotator.run send throw fuel2 c2 (Dict m')
          = (Dict m', Some (Err (ValueError "'new_coro' is in 'actions'")))).
Proof.
  split.
  - intros fuel c m m' r Hm Hrun fuel2 c2.
    destruct (_check_reserved_ok IStack._reserved m IStack.run_locals IStack_reserved_NoDup)
      as (m1 & Heq & Hin & _).
    { intros n Hn. split; [by apply Hm|by apply IStack_locals_bound]. }
    unfold IStack.run, _check_actions in Hrun. rewrite Heq in Hrun.
    injection Hrun as <- _.
    assert (Hb : m1 !! "stack_add" = Some (Closure IStack.StackAdd)).
    { rewrite Hin by left. reflexivity. }
    unfold IStack.run, _check_actions, IStack._reserved. simpl _check_reserved.
    by rewrite Hb.
  - intros fuel c m m' r Hm Hrun fuel2 c2.
    destruct (_check_reserved_ok IRotator._reserved m IRotator.run_locals
                IRotator_reserved_NoDup) as (m1 & Heq & Hin & _).
    { intros n Hn. split; [by apply Hm|by apply IRotator_locals_bound]. }
    unfold IRotator.run, _check_actions in Hrun. rewrite Heq in Hrun.
    injection Hrun as <- _.
    assert (Hb : m1 !! "new_coro" = Some (Closure IRotator.NewCoro)).
    { rewrite Hin by left. reflexivity. }
    unfold IRotator.run, _check_actions, IRotator._reserved. simpl _check_reserved.
    by rewrite Hb.
Qed.

End StackMore.

(** ** Setup: when [_check_actions] passes, and [_action_adder] *)

Section SetupMore.
Context {coroutine : Type}.
Context (send : coroutine -> value coroutine -> outcome coroutine).
Context (throw : coroutine -> exn -> outcome coroutine).

Lemma _check_reserved_passes (closure : Type) reserved
    (m locals_ m' : gmap string (pyobj coroutine closure)) :
  _check_reserved reserved m locals_ = (m', None) ->
  NoDup reserved /\ forall n, n ∈ reserved -> m !! n = None /\ is_Some (locals_ !! n).
Proof.
  revert m. induction reserved as [|a rest IH]; intros m H.
  - split; [apply NoDup_nil_2|]. intros n Hn. by apply elem_of_nil in Hn.
  - simpl in H. destruct (m !! a) as [x|] eqn:Hma; [discriminate|].
    destruct (locals_ !! a) as [f|] eqn:Hla; [|discriminate].
    destruct (IH _ H) as [Hnd Hall].
    assert (Ha : a ∉ rest).
    { intros Hin. destruct (Hall a Hin) as [Hn _]. by rewrite lookup_insert_eq in Hn. }
    split; [by apply NoDup_cons|].
    intros n Hn. apply elem_of_cons in Hn as [->|Hn]; [by rewrite Hla|].
    destruct (Hall n Hn) as [Hmn Hln]. split; [|done].
    rewrite lookup_insert_ne in Hmn; [done|]. intros ->. contradiction.
Qed.

(** [_check_actions] passes on a dict exactly when the reserved names are
    pairwise distinct, none is in the dict and each is bound in
    [locals_]; the dict is then left with each reserved name bound to its
    local and every other entry as it was.  A reserved tuple that repeats
    a name never passes. *)
Theorem check_actions_passes_iff (closure : Type) reserved
    (m locals_ : gmap string (pyobj coroutine closure)) :
  (snd (_check_actions reserved (Dict m) locals_) = None
   <-> NoDup reserved
       /\ forall n, n ∈ reserved -> m !! n = None /\ is_Some (locals_ !! n))
  /\ (snd (_check_actions reserved (Dict m) locals_) = None ->
      exists m', fst (_check_actions reserved (Dict m) locals_) = Dict m'
        /\ (forall n, n ∈ reserved -> m' !! n = locals_ !! n)
        /\ (forall n, n ∉ reserved -> m' !! n = m !! n)).
Proof.
  assert (Hfwd : snd (_check_actions reserved (Dict m) locals_) = None ->
            NoDup reserved
            /\ forall n, n ∈ reserved -> m !! n = None /\ is_Some (locals_ !! n)).
  { unfold _check_actions.
    destruct (_check_reserved reserved m locals_) as [m' [e|]] eqn:Heq; [discriminate|].
    intros _. by eapply _check_reserved_passes. }
  assert (Hbwd : NoDup reserved
            /\ (forall n, n ∈ reserved -> m !! n = None /\ is_Some (locals_ !! n)) ->
            exists m', _check_actions reserved (Dict m) locals_ = (Dict m', None)
              /\ (forall n, n ∈ reserved -> m' !! n = locals_ !! n)
              /\ (forall n, n ∉ reserved -> m' !! n = m !! n)).
  { intros [Hnd Hall].
    destruct (_check_reserved_ok reserved m locals_ Hnd Hall) as (m' & Heq & H1 & H2).
    exists m'. unfold _check_actions. by rewrite Heq. }
  split.
  - split; [exact Hfwd|]. intros H. destruct (Hbwd H) as (m' & Heq & _). by rewrite Heq.
  - intros H. destruct (Hbwd (Hfwd H)) as (m' & Heq & H1 & H2).
    exists m'. by rewrite Heq.
Qed.

(** [_adder(func, name)] binds [func] under [name], or under its
    [__name__] when no name is given, whatever the dict held there, and
    returns [func]; the getter then dispatches a request of that name to
    [func], and every other entry is as before.  Without a name and
    without [__name__] it raises and the dict is left alone.  Nothing
    keeps [_adder] off a reserved name: a dict in which it bound
    [stack_add] makes [IStack.run] fail at setup. *)
Theorem action_adder_semantics :
  (forall (closure S : Type) call (actions : gmap string (pyobj coroutine closure))
          (func : pyfunc) name n h args kwargs (st : S),
     name = Some n \/ (name = None /\ func_name func = Some n) ->
     func_obj func = Handler h ->
     exists actions',
       _action_adder actions func name = (actions', Ok func)
       /\ _action_getter call actions' (Request n args kwargs) st = (h args kwargs, st)
       /\ (forall k, k <> n -> actions' !! k = actions !! k))
  /\ (forall (closure : Type) (actions : gmap string (pyobj coroutine closure))
             (func : pyfunc),
        func_name func = None ->
        _action_adder actions func None
        = (actions, Err (AttributeError "object has no attribute '__name__'")))
  /\ (forall (actions : gmap string (pyobj coroutine IStack.closure)) (func : pyfunc)
             name fuel c,
        name = Some "stack_add" \/ (name = None /\ func_name func = Some "stack_add") ->
        exists actions',
          _action_adder actions func name = (actions', Ok func)
          /\ IStack.run send throw fuel c (Dict actions')
             = (Dict actions', Some (Err (ValueError "'stack_add' is in 'actions'")))).
Proof.
  assert (Hadd : forall (closure : Type) (actions : gmap string (pyobj coroutine closure))
                   (func : pyfunc) name n,
            name = Some n \/ (name = None /\ func_name func = Some n) ->
            _action_adder actions func name = (<[n := func_obj func]> actions, Ok func)).
  { intros closure actions func name n [->|[-> Hn]]; unfold _action_adder; [done|].
    by rewrite Hn. }
  split; [|split].
  - intros closure S call actions func name n h args kwargs st Hname Hh.
    exists (<[n := func_obj func]> actions). split; [by apply Hadd|]. split.
    + unfold _action_getter. cbn [req_name req_args req_kwargs].
      by rewrite lookup_insert_eq, Hh.
    + intros k Hk. by rewrite lookup_insert_ne.
  - intros closure actions func Hn. unfold _action_adder. by rewrite Hn.
  - intros actions func name fuel c Hname.
    exists (<["stack_add" := func_obj func]> actions). split; [by apply Hadd|].
    unfold IStack.run, _check_actions, IStack._reserved. simpl _check_reserved.
    by rewrite lookup_insert_eq.
Qed.

End SetupMore.

(** ** The rotator: records, ids and the registry *)

Section RotatorMore.
Import IRotator.
Context {coroutine : Type}.
Context (send : coroutine -> value coroutine -> outcome coroutine).
Context (throw : coroutine -> exn -> outcome coroutine).
Implicit Types st : state coroutine.
Implicit Types r : info coroutine.
Implicit Types actions : gmap string (pyobj coroutine closure).

(** No record is ever deleted, and a record that is not terminated stays
    registered. *)
Local Abbreviation keeps st st' :=
  ((forall j, is_Some (records st !! j) -> is_Some (records st' !! j))
   /\ (complete st -> complete st')).

Lemma keeps_refl st : keeps st st.
Proof. done. Qed.

Lemma keeps_trans st1 st2 st3 : keeps st1 st2 -> keeps st2 st3 -> keeps st1 st3.
Proof. intros [H1 H2] [H3 H4]. split; auto. Qed.

Lemma upd_keeps i f st :
  (forall r, terminated r = true -> terminated (f r) = true) ->
  keeps st (upd i f st).
Proof.
  intros Hf. split.
  - intros j Hj. rewrite upd_lookup. destruct (decide (i = j)); [|done].
    by apply fmap_is_Some.
  - intros Hc j r'. rewrite upd_lookup. destruct (decide (i = j)) as [->|Hne]; [|apply Hc].
    destruct (records st !! j) as [r|] eqn:Hj; [|done]. simpl. intros [= <-] Ht.
    apply (Hc j r Hj). destruct (terminated r) eqn:E; [|done].
    by rewrite (Hf r E) in Ht.
Qed.

Lemma coro_adder_send_keeps c st : keeps st (snd (coro_adder_send c st)).
Proof.
  unfold coro_adder_send. cbn [snd]. split.
  - intros j Hj. cbn [records]. rewrite lookup_insert.
    destruct (decide (id_ st = j)); [by eexists|done].
  - intros Hc j r'. cbn [records coro_info]. rewrite lookup_insert.
    destruct (decide (id_ st = j)) as [<-|Hne].
    + intros _ _. apply elem_of_app. right. left.
    + intros Hj Ht. apply elem_of_app. left. by apply (Hc j r').
Qed.

Lemma terminate_keeps cid v e st : keeps st (terminate cid v e st).
Proof.
  split.
  - intros j Hj. rewrite terminate_lookup. cbv zeta.
    destruct (decide (cid = j)), (decide (j ∈ cinfo_waiting cid st));
      repeat apply fmap_is_Some; done.
  - intros Hc j r'. rewrite terminate_lookup. cbv zeta.
    destruct (terminate_fields cid v e st) as (-> & _).
    intros Hj Ht. apply list_elem_of_filter.
    destruct (decide (cid = j)) as [<-|Hne].
    + exfalso. destruct (records st !! cid) as [rc|]; simpl in Hj.
      * destruct (decide (cid ∈ cinfo_waiting cid st)); simpl in Hj;
          injection Hj as <-; [rewrite wake_terminated in Ht|]; done.
      * by destruct (decide (cid ∈ cinfo_waiting cid st)).
    + split; [congruence|].
      destruct (records st !! j) as [r|] eqn:Hjr.
      2:{ by destruct (decide (j ∈ cinfo_waiting cid st)). }
      apply (Hc j r Hjr).
      destruct (decide (j ∈ cinfo_waiting cid st)); simpl in Hj; injection Hj as <-;
        [by rewrite wake_terminated in Ht|done].
Qed.

Lemma call_keeps cid b args kwargs a st res a' st' :
  call cid b args kwargs (a, st) = (res, (a', st')) -> keeps st st'.
Proof.
  intros Hcall. destruct b; cbn [call fst snd] in Hcall.
  - unfold new_coro, coro_adder_send in Hcall.
    repeat case_match; simplify_eq; try apply keeps_refl.
    apply (coro_adder_send_keeps v st).
  - unfold wait_coro in Hcall.
    repeat case_match; simplify_eq; try apply keeps_refl.
    unfold _suspend. eapply keeps_trans; apply upd_keeps; done.
  - destruct (no_arguments args kwargs); simplify_eq; apply keeps_refl.
  - destruct (no_arguments args kwargs); simplify_eq; apply keeps_refl.
  - destruct (no_arguments args kwargs); simplify_eq; apply keeps_refl.
  - destruct (no_arguments args kwargs); simplify_eq; apply keeps_refl.
Qed.

Lemma action_keeps cid actions req a st res a' st' :
  _action_getter (call cid) actions req (a, st) = (res, (a', st')) -> keeps st st'.
Proof.
  unfold _action_getter. destruct (actions !! req_name req) as [[b|h|]|].
  - apply call_keeps.
  - intros [= _ _ <-]. apply keeps_refl.
  - intros [= _ _ <-]. apply keeps_refl.
  - intros [= _ _ <-]. apply keeps_refl.
Qed.

Lemma turn_keeps actions cid a st :
  match turn send throw actions cid a st with
  | inl (_, st') => keeps st st'
  | inr (st', _) => keeps st st'
  end.
Proof.
  unfold turn. destruct (records st !! cid) as [rc|]; [|apply keeps_refl].
  assert (H0 : keeps st (log cid st)).
  { split; [intros j Hj; exact Hj|intros Hc; exact Hc]. }
  destruct (resume send throw rc) as [req c'|v|e].
  - assert (H1 : keeps st (upd cid (set_coro (VCoro c')) (log cid st))).
    { eapply keeps_trans; [exact H0|]. by apply upd_keeps. }
    destruct (_action_getter (call cid) actions req
                (a, upd cid (set_coro (VCoro c')) (log cid st))) as [res [a' st2]] eqn:Hact.
    pose proof (action_keeps _ _ _ _ _ _ _ _ Hact) as H2.
    assert (H12 : keeps st st2) by (eapply keeps_trans; [exact H1|exact H2]).
    destruct res as [v|e].
    + eapply keeps_trans; [exact H12|]. by apply upd_keeps.
    + destruct (is_Exception e).
      * eapply keeps_trans; [exact H12|]. by apply upd_keeps.
      * eapply keeps_trans; [exact H12|]. apply terminate_keeps.
  - eapply keeps_trans; [exact H0|]. apply terminate_keeps.
  - eapply keeps_trans; [exact H0|]. apply terminate_keeps.
Qed.

Lemma drive_keeps actions cid fuel a st a' st' s :
  drive send throw fuel actions cid a st = (a', st', s) -> keeps st st'.
Proof.
  revert a st. induction fuel as [|fuel IH]; intros a st Hd; simpl in Hd.
  - destruct (a && cinfo_active cid st); injection Hd as _ <- _; apply keeps_refl.
  - destruct (a && cinfo_active cid st); [|injection Hd as _ <- _; apply keeps_refl].
    pose proof (turn_keeps actions cid a st) as Ht.
    destruct (turn send throw actions cid a st) as [[a1 st1]|[st1 s1]].
    + eapply keeps_trans; [exact Ht|]. by eapply IH.
    + by injection Hd as _ <- _.
Qed.

Lemma sweep_over_keeps actions fuel snapshot st st' s :
  sweep_over send throw fuel actions snapshot st = (st', s) -> keeps st st'.
Proof.
  revert st. induction snapshot as [|cid rest IH]; intros st Hs; simpl in Hs.
  - injection Hs as <- _. apply keeps_refl.
  - destruct (visit send throw fuel actions cid st) as [[a1 st1] s1] eqn:Hv.
    pose proof (drive_keeps _ _ _ _ _ _ _ _ Hv) as H1.
    destruct s1; [|by injection Hs as <- _|by injection Hs as <- _].
    eapply keeps_trans; [exact H1|]. by eapply IH.
Qed.

(** Ids are handed out in increasing order and never reused: across a
    sweep the counter does not go back, every record that existed still
    exists, all records have ids below the counter, and the id the next
    [new_coro] hands out is the counter, above them all. *)
Theorem ids_never_reused actions fuel st st' s :
  wf st ->
  sweep send throw fuel actions st = (st', s) ->
  id_ st <= id_ st'
  /\ (forall i, is_Some (records st !! i) -> is_Some (records st' !! i))
  /\ (forall i, is_Some (records st' !! i) -> i < id_ st')
  /\ (forall c a cid,
        call cid NewCoro [c] [] (a, st')
        = (Ok (VInfo (id_ st')), (a, snd (coro_adder_send c st')))
        /\ records st' !! id_ st' = None
        /\ id_ (snd (coro_adder_send c st')) = S (id_ st')).
Proof.
  intros Hwf Hsw.
  destruct (sweep_good send throw _ _ _ _ _ Hwf Hsw) as (Hwf' & (Hle & _) & _).
  pose proof (sweep_over_keeps _ _ _ _ _ _ Hsw) as [Hkeep _].
  destruct Hwf' as (Hk & _).
  split; [done|]. split; [done|]. split.
  - intros i [r Hr]. eauto.
  - intros c a cid. split; [reflexivity|]. split; [|reflexivity].
    destruct (records st' !! id_ st') as [r|] eqn:E; [|done]. apply Hk in E. lia.
Qed.

Lemma start_complete (c : value coroutine) : complete (start c).
Proof.
  apply (coro_adder_send_keeps c (State [] ∅ 0 [])).
  intros i r. cbn [records]. by rewrite lookup_empty.
Qed.

(** The registry is the set of records that are not terminated: this
    holds when [run] starts and after every sweep, so what [all_info]
    shows is exactly the tasks that have not ended, oldest first. *)
Theorem registry_lists_live_records :
  (forall c : value coroutine,
     wf (start c) /\ complete (start c)
     /\ forall i, i ∈ coro_info (start c) <-> live i (start c))
  /\ (forall actions fuel st st' s,
        wf st -> complete st ->
        sweep send throw fuel actions st = (st', s) ->
        wf st' /\ complete st'
        /\ (forall i, i ∈ coro_info st' <-> live i st')
        /\ StronglySorted lt (coro_info st')).
Proof.
  assert (Hiff : forall st, wf st -> complete st -> forall i, i ∈ coro_info st <-> live i st).
  { intros st (_ & Hr & _) Hc i. split; [apply Hr|]. intros (r & Hi & Ht). by eapply Hc. }
  split.
  - intros c. split; [apply start_wf|]. split; [apply start_complete|].
    apply Hiff; [apply start_wf|apply start_complete].
  - intros actions fuel st st' s Hwf Hc Hsw.
    destruct (sweep_good send throw _ _ _ _ _ Hwf Hsw) as (Hwf' & _).
    pose proof (sweep_over_keeps _ _ _ _ _ _ Hsw) as [_ Hkeep].
    split; [done|]. split; [by apply Hkeep|]. split; [apply Hiff; auto|]. apply Hwf'.
Qed.

(** ** The rotator: requests, failures and waking *)

Lemma sweep_over_skip actions fuel pre rest st :
  (forall i, i ∈ pre -> cinfo_active i st = false) ->
  sweep_over send throw fuel actions (pre ++ rest) st
  = sweep_over send throw fuel actions rest st.
Proof.
  induction pre as [|cid pre IH]; intros Hpre; [done|].
  simpl. unfold visit. rewrite (Hpre cid) by left.
  rewrite drive_inactive by (apply Hpre; left).
  apply IH. intros i Hi. apply Hpre. by right.
Qed.

Lemma sweep_idle actions fuel st :
  idle st -> sweep send throw fuel actions st = (st, Normal).
Proof.
  intros Hidle. unfold sweep.
  rewrite <- (app_nil_r (rev (coro_info st))). rewrite sweep_over_skip; [done|].
  intros i Hi. apply Hidle. exact (proj1 (elem_of_rev _ _) Hi).
Qed.

Lemma main_loop_idle actions main st r steps fuel :
  idle st -> records st !! main = Some r -> terminated r = false ->
  main_loop send throw steps fuel actions main st = None.
Proof.
  intros Hidle Hr Ht. induction fuel as [|fuel IH]; simpl; rewrite Hr, Ht; [done|].
  by rewrite sweep_idle.
Qed.

(** Nothing but a termination wakes a record.  When no registered record
    is active a sweep changes nothing, so if the root is not terminated
    the loop sweeps for ever and [run] never returns.  A root that waits
    for its own record brings this about. *)
Theorem idle_run_never_returns :
  (forall actions main st r,
     idle st -> records st !! main = Some r -> terminated r = false ->
     (forall fuel, sweep send throw fuel actions st = (st, Normal))
     /\ (forall steps fuel, main_loop send throw steps fuel actions main st = None))
  /\ (forall m c c1 c2,
        (forall n, n ∈ _reserved -> m !! n = None) ->
        send c VNone = Yielded (Request "this_info" [] []) c1 ->
        send c1 (VInfo 0) = Yielded (Request "wait_coro" [VInfo 0] []) c2 ->
        forall fuel, snd (run send throw fuel (VCoro c) (Dict m)) = None).
Proof.
  split.
  - intros actions main st r Hidle Hr Ht. split.
    + intros fuel. by apply sweep_idle.
    + intros steps fuel. by eapply main_loop_idle.
  - intros m c c1 c2 Hm Hc Hc1 fuel.
    destruct (_check_reserved_ok _reserved m run_locals IRotator_reserved_NoDup)
      as (actions & Hcheck & Hin & _).
    { intros n Hn. split; [by apply Hm|by apply IRotator_locals_bound]. }
    assert (Hti : actions !! "this_info" = Some (Closure ThisInfo)).
    { rewrite Hin by compute_done. reflexivity. }
    assert (Hw : actions !! "wait_coro" = Some (Closure WaitCoro)).
    { rewrite Hin by compute_done. reflexivity. }
    unfold run, _check_actions. rewrite Hcheck. cbn [snd].
    assert (T1 : turn send throw actions 0 true (start (VCoro c))
                 = inl (true, State [0] {[0 := Info (VInfo 0) None (VCoro c1) true false []]}
                                1 [0])).
    { erewrite turn_closure_ok; [|reflexivity|exact Hc|exact Hti|reflexivity].
      vm_compute. reflexivity. }
    assert (T2 : turn send throw actions 0 true
                   (State [0] {[0 := Info (VInfo 0) None (VCoro c1) true false []]} 1 [0])
                 = inl (true, State [0] {[0 := Info VNone None (VCoro c2) false false [0]]}
                                1 [0; 0])).
    { erewrite turn_closure_ok;
        [|vm_compute; reflexivity|exact Hc1|exact Hw|vm_compute; reflexivity].
      vm_compute. reflexivity. }
    assert (H0 : records (start (VCoro c)) !! 0
                 = Some (@new_info coroutine (VCoro c))) by reflexivity.
    destruct fuel as [|[|fuel]].
    + reflexivity.
    + cbn [main_loop]. rewrite H0. cbn [terminated new_info].
      unfold sweep. change (rev (coro_info (start (VCoro c)))) with [0].
      cbn [sweep_over]. unfold visit.
      change (cinfo_active 0 (start (VCoro c))) with true.
      erewrite drive_step; [|reflexivity|exact T1]. reflexivity.
    + cbn [main_loop]. rewrite H0. cbn [terminated new_info].
      assert (Hsw : sweep send throw (S (S fuel)) actions (start (VCoro c))
                    = (State [0] {[0 := Info VNone None (VCoro c2) false false [0]]} 1 [0; 0],
                       Normal)).
      { unfold sweep. change (rev (coro_info (start (VCoro c)))) with [0].
        cbn [sweep_over]. unfold visit.
        change (cinfo_active 0 (start (VCoro c))) with true.
        erewrite drive_step; [|reflexivity|exact T1].
        erewrite drive_step; [|vm_compute; reflexivity|exact T2].
        rewrite drive_inactive by (vm_compute; reflexivity). reflexivity. }
      rewrite Hsw.
      eapply main_loop_idle; [|vm_compute; reflexivity|reflexivity].
      intros i Hi. cbn [coro_info] in Hi. apply list_elem_of_singleton in Hi as ->.
      vm_compute. reflexivity.
Qed.

(** A request served by an action of the embedder that returns [x]: the
    answer is stored as the pending [val] of the requesting record, no
    other record and not the registry is touched, and the task is resumed
    with [send(x)] in the same visit. *)
Theorem rotator_action_round_trip actions cid st rc name args kwargs c' h x fuel :
  records st !! cid = Some rc -> active rc = true ->
  resume send throw rc = Yielded (Request name args kwargs) c' ->
  actions !! name = Some (Handler h) ->
  h args kwargs = Ok x ->
  let st' := upd cid (set_pending x None) (upd cid (set_coro (VCoro c')) (log cid st)) in
  drive send throw (S fuel) actions cid true st = drive send throw fuel actions cid true st'
  /\ records st' !! cid
     = Some (Info x None (VCoro c') true (terminated rc) (waiting_coros rc))
  /\ resume send throw (Info x None (VCoro c') true (terminated rc) (waiting_coros rc))
     = send c' x
  /\ (forall j, j <> cid -> records st' !! j = records st !! j)
  /\ coro_info st' = coro_info st.
Proof.
  intros Hrc Hact Hres Hm Hh st'.
  assert (Hg : cinfo_active cid st = true) by (unfold cinfo_active; by rewrite Hrc, Hact).
  assert (Hturn : turn send throw actions cid true st = inl (true, st')).
  { unfold turn. rewrite Hrc, Hres. unfold _action_getter.
    cbn [req_name req_args req_kwargs]. by rewrite Hm, Hh. }
  split; [by apply drive_step|]. split; [|split; [done|split; [|done]]].
  - unfold st'. rewrite !upd_lookup_eq. cbn [log records]. rewrite Hrc.
    unfold set_pending, set_coro. cbn. by rewrite Hact.
  - intros j Hj. unfold st'. by rewrite !upd_lookup_ne.
Qed.

(** A request that fails with an exception [e] under [Exception] (no
    action of that name: [KeyError name]; an entry that is not callable: a
    [TypeError]; an action that raises [e]; [wait_coro] on [None]: a
    [TypeError], and on the registry dict: [KeyError "terminated"]): [e]
    is stored as the pending [exc] of the requesting record, which stays
    active, and the task is resumed in the same visit, with [throw(e)]
    when [e] is truthy, as those of the interpreter are, and with
    [send(None)] when [e] is falsy. *)
Theorem rotator_action_failure actions cid st rc name args kwargs c' fuel :
  records st !! cid = Some rc -> active rc = true ->
  resume send throw rc = Yielded (Request name args kwargs) c' ->
  actions !! name = None
  \/ actions !! name = Some Opaque
  \/ (exists h e0, actions !! name = Some (Handler h) /\ h args kwargs = Err e0
                   /\ is_Exception e0 = true)
  \/ (actions !! name = Some (Closure WaitCoro) /\ kwargs = []
      /\ (args = [VNone] \/ args = [VAllInfo])) ->
  exists e,
    let st' := upd cid (set_pending VNone (Some e))
                 (upd cid (set_coro (VCoro c')) (log cid st)) in
    drive send throw (S fuel) actions cid true st = drive send throw fuel actions cid true st'
    /\ records st' !! cid
       = Some (Info VNone (Some e) (VCoro c') true (terminated rc) (waiting_coros rc))
    /\ resume send throw (Info VNone (Some e) (VCoro c') true (terminated rc) (waiting_coros rc))
       = (if truthy e then throw c' e else send c' VNone)
    /\ (forall j, j <> cid -> records st' !! j = records st !! j)
    /\ coro_info st' = coro_info st
    /\ is_Exception e = true
    /\ (actions !! name = None -> e = KeyError name /\ truthy e = true)
    /\ (actions !! name = Some Opaque -> (exists msg, e = TypeError msg) /\ truthy e = true)
    /\ (forall h, actions !! name = Some (Handler h) -> h args kwargs = Err e)
    /\ (actions !! name = Some (Closure WaitCoro) ->
        (args = [VNone] -> (exists msg, e = TypeError msg) /\ truthy e = true)
        /\ (args = [VAllInfo] -> e = KeyError "terminated" /\ truthy e = true)).
Proof.
  intros Hrc Hact Hres Hcase.
  assert (Hg : cinfo_active cid st = true) by (unfold cinfo_active; by rewrite Hrc, Hact).
  assert (Hall : forall e,
            _action_getter (call cid) actions (Request name args kwargs)
              (true, upd cid (set_coro (VCoro c')) (log cid st))
              = (Err e, (true, upd cid (set_coro (VCoro c')) (log cid st))) ->
            is_Exception e = true ->
            let st' := upd cid (set_pending VNone (Some e))
                         (upd cid (set_coro (VCoro c')) (log cid st)) in
            drive send throw (S fuel) actions cid true st
              = drive send throw fuel actions cid true st'
            /\ records st' !! cid
               = Some (Info VNone (Some e) (VCoro c') true (terminated rc) (waiting_coros rc))
            /\ resume send throw
                 (Info VNone (Some e) (VCoro c') true (terminated rc) (waiting_coros rc))
               = (if truthy e then throw c' e else send c' VNone)
            /\ (forall j, j <> cid -> records st' !! j = records st !! j)
            /\ coro_info st' = coro_info st
            /\ is_Exception e = true).
  { intros e Hget He st'.
    assert (Hturn : turn send throw actions cid true st = inl (true, st')).
    { unfold turn. by rewrite Hrc, Hres, Hget, He. }
    split; [by apply drive_step|]. split; [|split; [done|split; [|done]]].
    - unfold st'. rewrite !upd_lookup_eq. cbn [log records]. rewrite Hrc.
      unfold set_pending, set_coro. cbn. by rewrite Hact.
    - intros j Hj. unfold st'. by rewrite !upd_lookup_ne. }
  unfold _action_getter in Hall. cbn [req_name req_args req_kwargs] in Hall.
  destruct Hcase as [Hm|[Hm|[(h & e0 & Hm & Hh & He)|(Hm & -> & Hargs)]]]; rewrite Hm in Hall.
  - destruct (Hall _ eq_refl eq_refl) as (H1 & H2 & H3 & H4 & H5 & H6).
    eexists. repeat (split; [exact H1 || exact H2 || exact H3 || exact H4 || exact H5
                              || exact H6|]).
    repeat split; intros; try congruence; by eexists.
  - destruct (Hall _ eq_refl eq_refl) as (H1 & H2 & H3 & H4 & H5 & H6).
    eexists. repeat (split; [exact H1 || exact H2 || exact H3 || exact H4 || exact H5
                              || exact H6|]).
    repeat split; intros; try congruence; by eexists.
  - rewrite Hh in Hall. destruct (Hall e0 eq_refl He) as (H1 & H2 & H3 & H4 & H5 & H6).
    exists e0. repeat (split; [exact H1 || exact H2 || exact H3 || exact H4 || exact H5
                                || exact H6|]).
    repeat split; intros; try congruence; by eexists.
  - destruct Hargs as [-> | ->];
      destruct (Hall _ eq_refl eq_refl) as (H1 & H2 & H3 & H4 & H5 & H6);
      eexists; repeat (split; [exact H1 || exact H2 || exact H3 || exact H4 || exact H5
                                || exact H6|]);
      repeat split; intros; try congruence; by eexists.
Qed.

Lemma terminate_self_lookup cid v e st rc :
  records st !! cid = Some rc ->
  records (terminate cid v e st) !! cid
  = Some (Info v e (coro rc) false true (waiting_coros rc)).
Proof.
  intros Hrc. rewrite terminate_lookup. cbv zeta.
  rewrite (decide_True (P := cid = cid)) by done. rewrite Hrc. simpl.
  destruct (decide (cid ∈ cinfo_waiting cid st)); done.
Qed.

(** An exception [e] outside [Exception] aborts the whole [run], whether a
    task raises it or an action does.  The record being driven is
    terminated with [e], the records after it in the snapshot are not
    visited, and [run] raises [e] though the root has not ended.  When an
    action raised it, the requesting task is terminated although its
    coroutine has not ended. *)
Theorem rotator_fatal_aborts :
  (forall actions cid st rc e fuel pre rest,
     records st !! cid = Some rc -> active rc = true ->
     resume send throw rc = Raised e -> is_Exception e = false ->
     (forall i, i ∈ pre -> cinfo_active i st = false) ->
     let st' := terminate cid VNone (Some e) (log cid st) in
     sweep_over send throw (S fuel) actions (pre ++ cid :: rest) st = (st', Abort e)
     /\ resumed st' = resumed st ++ [cid]
     /\ records st' !! cid
        = Some (Info VNone (Some e) (coro rc) false true (waiting_coros rc))
     /\ (forall main rm n,
           rev (coro_info st) = pre ++ cid :: rest ->
           records st !! main = Some rm -> terminated rm = false ->
           main_loop send throw (S fuel) (S n) actions main st = Some (Err e)))
  /\ (forall actions cid st rc name args kwargs c' h e fuel pre rest,
        records st !! cid = Some rc -> active rc = true ->
        resume send throw rc = Yielded (Request name args kwargs) c' ->
        actions !! name = Some (Handler h) ->
        h args kwargs = Err e -> is_Exception e = false ->
        (forall i, i ∈ pre -> cinfo_active i st = false) ->
        let st' := terminate cid VNone (Some e)
                     (upd cid (set_coro (VCoro c')) (log cid st)) in
        sweep_over send throw (S fuel) actions (pre ++ cid :: rest) st = (st', Abort e)
        /\ resumed st' = resumed st ++ [cid]
        /\ records st' !! cid
           = Some (Info VNone (Some e) (VCoro c') false true (waiting_coros rc))
        /\ (forall main rm n,
              rev (coro_info st) = pre ++ cid :: rest ->
              records st !! main = Some rm -> terminated rm = false ->
              main_loop send throw (S fuel) (S n) actions main st = Some (Err e))).
Proof.
  assert (Hmain : forall actions st st' e fuel,
            sweep send throw (S fuel) actions st = (st', Abort e) ->
            forall main rm n,
              records st !! main = Some rm -> terminated rm = false ->
              main_loop send throw (S fuel) (S n) actions main st = Some (Err e)).
  { intros actions st st' e fuel Hsw main rm n Hm Ht.
    cbn [main_loop]. by rewrite Hm, Ht, Hsw. }
  split.
  - intros actions cid st rc e fuel pre rest Hrc Hact Hres He Hpre st'.
    assert (Hg : cinfo_active cid st = true) by (unfold cinfo_active; by rewrite Hrc, Hact).
    assert (Hturn : turn send throw actions cid true st = inr (st', Abort e)).
    { unfold turn. by rewrite Hrc, Hres, He. }
    assert (Hsw : sweep_over send throw (S fuel) actions (pre ++ cid :: rest) st
                  = (st', Abort e)).
    { rewrite sweep_over_skip by done. cbn [sweep_over]. unfold visit. rewrite Hg.
      by rewrite (drive_end send throw actions cid fuel st st' (Abort e) Hg Hturn). }
    split; [done|]. split.
    { unfold st'. by destruct (terminate_fields cid VNone (Some e) (log cid st)) as (_ & _ & ->). }
    split; [by apply terminate_self_lookup|].
    intros main rm n Hrev. eapply Hmain. unfold sweep. by rewrite Hrev.
  - intros actions cid st rc name args kwargs c' h e fuel pre rest
           Hrc Hact Hres Hm Hh He Hpre st'.
    assert (Hg : cinfo_active cid st = true) by (unfold cinfo_active; by rewrite Hrc, Hact).
    assert (Hturn : turn send throw actions cid true st = inr (st', Abort e)).
    { unfold turn. rewrite Hrc, Hres. unfold _action_getter.
      cbn [req_name req_args req_kwargs]. by rewrite Hm, Hh, He. }
    assert (Hsw : sweep_over send throw (S fuel) actions (pre ++ cid :: rest) st
                  = (st', Abort e)).
    { rewrite sweep_over_skip by done. cbn [sweep_over]. unfold visit. rewrite Hg.
      by rewrite (drive_end send throw actions cid fuel st st' (Abort e) Hg Hturn). }
    split; [done|]. split.
    { unfold st'.
      by destruct (terminate_fields cid VNone (Some e)
                     (upd cid (set_coro (VCoro c')) (log cid st))) as (_ & _ & ->). }
    split.
    { unfold st'.
      rewrite (terminate_self_lookup cid VNone (Some e) _ (set_coro (VCoro c') rc));
        [reflexivity|].
      rewrite upd_lookup_eq. cbn [log records]. by rewrite Hrc. }
    intros main rm n Hrev. eapply Hmain. unfold sweep. by rewrite Hrev.
Qed.

(** A task that ends on an exception [e] under [Exception] does not stop
    the sweep: its record is terminated with [e] as [exc], so that
    [get_result] raises [e] when [e] is truthy and returns [None] when
    [e] is falsy, and it leaves the registry.  [e] is not thrown into the
    tasks waiting for it: they are made active with nothing pending, and
    are resumed with [None]. *)
Theorem rotator_task_failure_recorded actions cid st rc e fuel rest :
  records st !! cid = Some rc -> active rc = true ->
  resume send throw rc = Raised e -> is_Exception e = true ->
  let st' := terminate cid VNone (Some e) (log cid st) in
  sweep_over send throw (S fuel) actions (cid :: rest) st
    = sweep_over send throw (S fuel) actions rest st'
  /\ records st' !! cid = Some (Info VNone (Some e) (coro rc) false true (waiting_coros rc))
  /\ get_result (Info VNone (Some e) (coro rc) false true (waiting_coros rc))
     = (if truthy e then Err e else Ok VNone)
  /\ (cid ∉ coro_info st')
  /\ (forall w rw,
        w ∈ waiting_coros rc -> w <> cid ->
        records st !! w = Some rw -> terminated rw = false ->
        records st' !! w = Some (Info VNone None (coro rw) true false (waiting_coros rw))
        /\ resume send throw (Info VNone None (coro rw) true false (waiting_coros rw))
           = obj_send send (coro rw) VNone).
Proof.
  intros Hrc Hact Hres He st'.
  assert (Hg : cinfo_active cid st = true) by (unfold cinfo_active; by rewrite Hrc, Hact).
  assert (Hturn : turn send throw actions cid true st = inr (st', Normal)).
  { unfold turn. by rewrite Hrc, Hres, He. }
  split; [|split; [by apply terminate_self_lookup|split; [done|split]]].
  - cbn [sweep_over]. unfold visit. rewrite Hg.
    by rewrite (drive_end send throw actions cid fuel st st' Normal Hg Hturn).
  - unfold st'. destruct (terminate_fields cid VNone (Some e) (log cid st)) as (-> & _).
    intros H. apply list_elem_of_filter in H as [H _]. done.
  - intros w rw Hw Hne Hrw Ht. split; [|done].
    unfold st'. rewrite terminate_lookup. cbv zeta.
    rewrite (decide_False (P := cid = w)) by congruence.
    assert (Hwait : cinfo_waiting cid (log cid st) = waiting_coros rc).
    { unfold cinfo_waiting. cbn [log records]. by rewrite Hrc. }
    rewrite Hwait, (decide_True (P := w ∈ waiting_coros rc)) by done.
    cbn [log records]. rewrite Hrw. simpl. unfold wake. by rewrite Ht.
Qed.

(** The [except] clause wakes exactly the waiters: every record in
    [waiting_coros] that is not terminated becomes active with [val] and
    [exc] cleared and is otherwise as it was; a record that is neither
    the one that ended nor one of its waiters is not touched; the
    registry loses the one key; and [waiting_coros] itself is kept. *)
Theorem terminate_wakes_exactly_waiters cid v e st rc :
  records st !! cid = Some rc ->
  let st' := terminate cid v e st in
  (forall w rw,
     w ∈ waiting_coros rc -> w <> cid ->
     records st !! w = Some rw -> terminated rw = false ->
     records st' !! w = Some (Info VNone None (coro rw) true false (waiting_coros rw)))
  /\ (forall j, j <> cid -> j ∉ waiting_coros rc -> records st' !! j = records st !! j)
  /\ coro_info st' = filter (fun i => i ≠ cid) (coro_info st)
  /\ id_ st' = id_ st
  /\ cinfo_waiting cid st' = waiting_coros rc.
Proof.
  intros Hrc st'.
  assert (Hwait : cinfo_waiting cid st = waiting_coros rc).
  { unfold cinfo_waiting. by rewrite Hrc. }
  destruct (terminate_fields cid v e st) as (Hci & Hid & _).
  split; [|split; [|split; [done|split; [done|]]]].
  - intros w rw Hw Hne Hrw Ht. unfold st'. rewrite terminate_lookup. cbv zeta.
    rewrite (decide_False (P := cid = w)) by congruence.
    rewrite Hwait, (decide_True (P := w ∈ waiting_coros rc)) by done.
    rewrite Hrw. simpl. unfold wake. by rewrite Ht.
  - intros j Hne Hj. unfold st'. rewrite terminate_lookup. cbv zeta.
    rewrite (decide_False (P := cid = j)) by congruence.
    by rewrite Hwait, (decide_False (P := j ∈ waiting_coros rc)).
  - unfold cinfo_waiting, st'. by rewrite (terminate_self_lookup cid v e st rc Hrc).
Qed.

(** [this_id], [this_info] and [all_info] answer with the id of the record
    being driven, with a reference to that very record, and with a
    reference to the registry; they change nothing else and the task
    goes on in the same visit.  Called with an argument they raise
    [TypeError] into the task. *)
Theorem introspection_actions actions cid st rc name b answer c' fuel :
  records st !! cid = Some rc -> active rc = true ->
  actions !! name = Some (Closure b) ->
  (b = ThisId /\ answer = VInt (Z.of_nat cid))
  \/ (b = ThisInfo /\ answer = VInfo cid)
  \/ (b = AllInfo /\ answer = VAllInfo) ->
  (resume send throw rc = Yielded (Request name [] []) c' ->
   let st' := upd cid (set_pending answer None)
                (upd cid (set_coro (VCoro c')) (log cid st)) in
   drive send throw (S fuel) actions cid true st = drive send throw fuel actions cid true st'
   /\ records st' !! cid
      = Some (Info answer None (VCoro c') true (terminated rc) (waiting_coros rc))
   /\ (forall j, j <> cid -> records st' !! j = records st !! j)
   /\ coro_info st' = coro_info st /\ id_ st' = id_ st)
  /\ (forall x, resume send throw rc = Yielded (Request name [x] []) c' ->
       exists msg,
         drive send throw (S fuel) actions cid true st
         = drive send throw fuel actions cid true
             (upd cid (set_pending VNone (Some (TypeError msg)))
                (upd cid (set_coro (VCoro c')) (log cid st)))).
Proof.
  intros Hrc Hact Hm Hb.
  assert (Hg : cinfo_active cid st = true) by (unfold cinfo_active; by rewrite Hrc, Hact).
  split.
  - intros Hres st'.
    assert (Hturn : turn send throw actions cid true st = inl (true, st')).
    { eapply turn_closure_ok; [exact Hrc|exact Hres|exact Hm|].
      destruct Hb as [[-> ->]|[[-> ->]|[-> ->]]]; reflexivity. }
    split; [by apply drive_step|]. split; [|split; [|done]].
    + unfold st'. rewrite !upd_lookup_eq. cbn [log records]. rewrite Hrc.
      unfold set_pending, set_coro. cbn. by rewrite Hact.
    + intros j Hj. unfold st'. by rewrite !upd_lookup_ne.
  - intros x Hres.
    assert (Hturn : exists msg,
              turn send throw actions cid true st
              = inl (true, upd cid (set_pending VNone (Some (TypeError msg)))
                             (upd cid (set_coro (VCoro c')) (log cid st)))).
    { unfold turn. rewrite Hrc, Hres. unfold _action_getter.
      cbn [req_name req_args req_kwargs]. rewrite Hm.
      destruct Hb as [[-> ->]|[[-> ->]|[-> ->]]]; cbn [call no_arguments];
        eexists; reflexivity. }
    destruct Hturn as [msg Hturn]. exists msg. by apply drive_step.
Qed.

End RotatorMore.

(** ** These properties at concrete inputs *)

Section MoreInstances.
Import Script.

Lemma stack_action_round_trip_witness :
  IStack.iteration send throw {["echo" := Handler echo]}
    (IStack.State ([] ++ [VCoro asker]) VNone None)
  = inl (IStack.State ([] ++ [VCoro [Return Last]]) (VInt 42) None)
  /\ IStack.resume_top send throw (IStack.State ([] ++ [VCoro [Return Last]]) (VInt 42) None)
     = send [Return Last] (VInt 42).
Proof.
  apply (stack_action_round_trip send throw {["echo" := Handler echo]} [] (VCoro asker)
           VNone None "echo" [VInt 42] [] [Return Last] echo (VInt 42));
    reflexivity.
Defined.

Lemma stack_action_failure_witness :
  exists e,
    IStack.iteration send throw ∅ (IStack.State ([] ++ [VCoro stray]) VNone None)
    = inl (IStack.State ([] ++ [VCoro [Return (Lit 0)]]) VNone (Some e))
    /\ IStack.resume_top send throw
         (IStack.State ([] ++ [VCoro [Return (Lit 0)]]) VNone (Some e))
       = throw [Return (Lit 0)] e
    /\ e = KeyError "nobody".
Proof.
  destruct (stack_action_failure send throw ∅ [] (VCoro stray) VNone None "nobody" [] []
              [Return (Lit 0)] eq_refl ltac:(left; reflexivity))
    as (e & H1 & H2 & _ & H4 & _).
  destruct (H4 eq_refl) as [He Ht]. exists e. split; [exact H1|]. split; [|exact He].
  rewrite Ht in H2. exact H2.
Defined.

Lemma stack_action_fatal_witness :
  IStack.iteration send throw {["boom" := Handler interrupt]}
    (IStack.State ([VCoro [Return Last]] ++ [VCoro [Call "boom" []; Return (Lit 0)]])
       VNone None)
  = inl (IStack.State [VCoro [Return Last]] VNone (Some (FatalError 2))).
Proof.
  apply (stack_action_fatal send throw {["boom" := Handler interrupt]} [VCoro [Return Last]]
           (VCoro [Call "boom" []; Return (Lit 0)]) VNone None "boom" [] []
           [Return (Lit 0)] interrupt (FatalError 2));
    reflexivity.
Defined.

Lemma stack_add_returns_value_witness :
  IStack.loop send throw (2 + 1) {["stack_add" := Closure IStack.StackAdd]}
    (IStack.State ([] ++ [VCoro [Call "stack_add" [Spawn child]; Return Last]]) VNone None)
  = IStack.loop send throw 1 {["stack_add" := Closure IStack.StackAdd]}
      (IStack.State ([] ++ [VCoro [Return Last]]) (VInt 5) None).
Proof.
  apply (stack_add_returns_value send throw {["stack_add" := Closure IStack.StackAdd]} []
           (VCoro [Call "stack_add" [Spawn child]; Return Last]) VNone None
           (VCoro child) [Return Last] (VInt 5));
    reflexivity.
Defined.

Lemma stack_add_not_a_coroutine_witness :
  IStack.loop send throw (2 + 1) {["stack_add" := Closure IStack.StackAdd]}
    (IStack.State ([] ++ [VCoro [Call "stack_add" [Lit 3]; Return Last]]) VNone None)
  = IStack.loop send throw 1 {["stack_add" := Closure IStack.StackAdd]}
      (IStack.State ([] ++ [VCoro [Return Last]]) VNone
         (Some (AttributeError "object has no attribute 'send'"))).
Proof.
  apply (stack_add_not_a_coroutine send throw {["stack_add" := Closure IStack.StackAdd]} []
           (VCoro [Call "stack_add" [Lit 3]; Return Last]) VNone None
           (VInt 3) [Return Last]).
  - reflexivity.
  - reflexivity.
  - intros c H. discriminate H.
Defined.

Lemma stack_frame_discipline_witness :
  exists frames top,
    IStack.stack (IStack.State [VCoro caller] VNone None) = frames ++ [top]
    /\ match IStack.iteration send throw {["stack_add" := Closure IStack.StackAdd]}
               (IStack.State [VCoro caller] VNone None) with
       | inl st' =>
           (IStack.stack st' = frames /\ frames <> [])
           \/ (exists top', IStack.stack st' = frames ++ [top'])
           \/ (exists top' new, IStack.stack st' = frames ++ [top'; new])
       | inr _ => frames = []
       end.
Proof.
  apply (stack_frame_discipline send throw {["stack_add" := Closure IStack.StackAdd]}
           (IStack.State [VCoro caller] VNone None)).
  discriminate.
Defined.

Lemma run_twice_fails_witness :
  IStack.run send throw 9 (VCoro (nest 1 7))
    (Dict (<["stack_add" := Closure IStack.StackAdd]> ∅))
  = (Dict (<["stack_add" := Closure IStack.StackAdd]> ∅),
     Some (Err (ValueError "'stack_add' is in 'actions'"))).
Proof.
  apply (proj1 (run_twice_fails send throw) 9 (VCoro (nest 1 7)) ∅
           (<["stack_add" := Closure IStack.StackAdd]> ∅) (Some (Ok (VInt 7)))).
  - intros n Hn. apply lookup_empty.
  - reflexivity.
Defined.

Lemma check_actions_passes_iff_witness :
  snd (_check_actions IStack._reserved (Dict ∅) (@IStack.run_locals task)) = None.
Proof.
  apply (proj2 (proj1 (check_actions_passes_iff IStack.closure IStack._reserved ∅
                         (@IStack.run_locals task)))).
  split; [apply IStack_reserved_NoDup|].
  intros n Hn. split; [apply lookup_empty|by apply IStack_locals_bound].
Defined.

Lemma action_adder_semantics_witness :
  exists actions',
    _action_adder (∅ : gmap string (pyobj task IStack.closure))
      (Func (Some "echo") (Handler echo)) None
    = (actions', Ok (Func (Some "echo") (Handler echo)))
    /\ _action_getter IStack.call actions' (Request "echo" [VInt 42] []) [VCoro asker]
       = (echo [VInt 42] [], [VCoro asker])
    /\ (forall k, k <> "echo" -> actions' !! k = (∅ : gmap string (pyobj task IStack.closure)) !! k).
Proof.
  apply (proj1 (action_adder_semantics send throw) IStack.closure _ IStack.call ∅
           (Func (Some "echo") (Handler echo)) None "echo" echo [VInt 42] [] [VCoro asker]).
  - right. split; reflexivity.
  - reflexivity.
Defined.

Import IRotator.

Lemma ids_never_reused_witness :
  let st := start (VCoro spawner) in
  let st' := fst (sweep send throw 9 rotator_actions st) in
  id_ st <= id_ st'
  /\ (forall i, is_Some (records st !! i) -> is_Some (records st' !! i))
  /\ (forall i, is_Some (records st' !! i) -> i < id_ st')
  /\ (forall c a cid,
        call cid NewCoro [c] [] (a, st')
        = (Ok (VInfo (id_ st')), (a, snd (coro_adder_send c st')))
        /\ records st' !! id_ st' = None
        /\ id_ (snd (coro_adder_send c st')) = S (id_ st')).
Proof.
  intros st st'.
  exact (ids_never_reused send throw rotator_actions 9 st st'
           (snd (sweep send throw 9 rotator_actions st)) (start_wf _) (surjective_pairing _)).
Defined.

Lemma registry_lists_live_records_witness :
  let st := start (VCoro waiter) in
  let st' := fst (sweep send throw 9 rotator_actions st) in
  wf st' /\ complete st'
  /\ (forall i, i ∈ coro_info st' <-> live i st')
  /\ StronglySorted lt (coro_info st').
Proof.
  intros st st'.
  exact (proj2 (registry_lists_live_records send throw) rotator_actions 9 st st'
           (snd (sweep send throw 9 rotator_actions st))
           (start_wf _) (start_complete _) (surjective_pairing _)).
Defined.

Lemma idle_run_never_returns_witness :
  snd (run send throw 7 (VCoro self_waiter) (Dict ∅)) = None.
Proof.
  apply (proj2 (idle_run_never_returns send throw) ∅ self_waiter
           [Call "wait_coro" [Last]; Return (Lit 0)] [Return (Lit 0)]).
  - intros n Hn. apply lookup_empty.
  - reflexivity.
  - reflexivity.
Defined.

Lemma rotator_action_round_trip_witness :
  let actions := <["echo" := Handler echo]> rotator_actions in
  let st := start (VCoro asker) in
  let st' := upd 0 (set_pending (VInt 42) None)
               (upd 0 (set_coro (VCoro [Return Last])) (log 0 st)) in
  drive send throw 4 actions 0 true st = drive send throw 3 actions 0 true st'
  /\ records st' !! 0 = Some (Info (VInt 42) None (VCoro [Return Last]) true false [])
  /\ resume send throw (Info (VInt 42) None (VCoro [Return Last]) true false [])
     = send [Return Last] (VInt 42)
  /\ (forall j, j <> 0 -> records st' !! j = records st !! j)
  /\ coro_info st' = coro_info st.
Proof.
  intros actions st st'.
  apply (rotator_action_round_trip send throw actions 0 st (new_info (VCoro asker))
           "echo" [VInt 42] [] [Return Last] echo (VInt 42) 3);
    reflexivity.
Defined.

Lemma rotator_action_failure_witness :
  let st := start (VCoro stray) in
  exists e,
    let st' := upd 0 (set_pending VNone (Some e))
                 (upd 0 (set_coro (VCoro [Return (Lit 0)])) (log 0 st)) in
    drive send throw 4 rotator_actions 0 true st = drive send throw 3 rotator_actions 0 true st'
    /\ records st' !! 0 = Some (Info VNone (Some e) (VCoro [Return (Lit 0)]) true false [])
    /\ resume send throw (Info VNone (Some e) (VCoro [Return (Lit 0)]) true false [])
       = throw [Return (Lit 0)] e
    /\ e = KeyError "nobody".
Proof.
  intros st.
  destruct (rotator_action_failure send throw rotator_actions 0 st (new_info (VCoro stray))
              "nobody" [] [] [Return (Lit 0)] 3 eq_refl eq_refl eq_refl ltac:(left; reflexivity))
    as (e & H1 & H2 & H3 & _ & _ & _ & H7 & _).
  destruct (H7 eq_refl) as [He Ht]. exists e.
  split; [exact H1|]. split; [exact H2|]. split; [|exact He].
  rewrite Ht in H3. exact H3.
Defined.

Lemma rotator_fatal_aborts_witness :
  let st := start (VCoro interrupted) in
  let st' := terminate 0 VNone (Some (FatalError 2)) (log 0 st) in
  sweep_over send throw 4 rotator_actions ([] ++ 0 :: []) st = (st', Abort (FatalError 2))
  /\ resumed st' = resumed st ++ [0]
  /\ records st' !! 0
     = Some (Info VNone (Some (FatalError 2)) (VCoro interrupted) false true [])
  /\ (forall main rm n,
        rev (coro_info st) = [] ++ 0 :: [] ->
        records st !! main = Some rm -> terminated rm = false ->
        main_loop send throw 4 (S n) rotator_actions main st = Some (Err (FatalError 2))).
Proof.
  intros st st'.
  apply (proj1 (rotator_fatal_aborts send throw) rotator_actions 0 st
           (new_info (VCoro interrupted)) (FatalError 2) 3 [] []).
  - reflexivity.
  - reflexivity.
  - reflexivity.
  - reflexivity.
  - intros i Hi. by apply elem_of_nil in Hi.
Defined.

Lemma rotator_task_failure_recorded_witness :
  let st := start (VCoro failing) in
  let st' := terminate 0 VNone (Some (TaskError 1)) (log 0 st) in
  sweep_over send throw 4 rotator_actions (0 :: []) st
    = sweep_over send throw 4 rotator_actions [] st'
  /\ records st' !! 0 = Some (Info VNone (Some (TaskError 1)) (VCoro failing) false true [])
  /\ get_result (Info VNone (Some (TaskError 1)) (VCoro failing) false true [])
     = (if truthy (TaskError 1) then Err (TaskError 1) else Ok VNone).
Proof.
  intros st st'.
  destruct (rotator_task_failure_recorded send throw rotator_actions 0 st
              (new_info (VCoro failing)) (TaskError 1) 3 []
              eq_refl eq_refl eq_refl eq_refl) as (H1 & H2 & H3 & _).
  split; [exact H1|]. split; [exact H2|exact H3].
Defined.

Lemma terminate_wakes_exactly_waiters_witness :
  let st := State [0; 1]
              (<[1 := Info VNone None (VCoro child) true false [0]]>
                 (<[0 := Info VNone None (VCoro [Return (Lit 9)]) false false []]> ∅))
              2 [0; 0] in
  let st' := terminate 1 (VInt 5) None st in
  records st' !! 0 = Some (Info VNone None (VCoro [Return (Lit 9)]) true false [])
  /\ coro_info st' = filter (fun i => i ≠ 1) (coro_info st)
  /\ cinfo_waiting 1 st' = [0].
Proof.
  intros st st'.
  destruct (terminate_wakes_exactly_waiters 1 (VInt 5) None st
              (Info VNone None (VCoro child) true false [0]) eq_refl)
    as (H1 & _ & H3 & _ & H5).
  split; [|split; [exact H3|exact H5]].
  apply (H1 0 (Info VNone None (VCoro [Return (Lit 9)]) false false [])).
  - left.
  - discriminate.
  - reflexivity.
  - reflexivity.
Defined.

Lemma introspection_actions_witness :
  let st := start (VCoro self_waiter) in
  let st' := upd 0 (set_pending (VInfo 0) None)
               (upd 0 (set_coro (VCoro [Call "wait_coro" [Last]; Return (Lit 0)]))
                  (log 0 st)) in
  drive send throw 4 rotator_actions 0 true st = drive send throw 3 rotator_actions 0 true st'
  /\ records st' !! 0
     = Some (Info (VInfo 0) None (VCoro [Call "wait_coro" [Last]; Return (Lit 0)])
               true false [])
  /\ (forall j, j <> 0 -> records st' !! j = records st !! j)
  /\ coro_info st' = coro_info st /\ id_ st' = id_ st.
Proof.
  intros st st'.
  apply (proj1 (introspection_actions send throw rotator_actions 0 st
                  (new_info (VCoro self_waiter)) "this_info" ThisInfo (VInfo 0)
                  [Call "wait_coro" [Last]; Return (Lit 0)] 3
                  eq_refl eq_refl eq_refl (or_intror (or_introl (conj eq_refl eq_refl))))).
  reflexivity.
Defined.

End MoreInstances.
